(** * migu: schema diffing and migration-statement synthesis

    A shallow embedding of [migu.go]: the type-equivalence registry
    ([sameTypeMap], [isSameType]), the field model ([field], [IsDifferent]),
    the field-level differ ([makeAlterTableFields]), the index differ
    ([makeIndexMap]), column rendering ([columnSQL]), the reconciliation
    loop of [Diff], the catalog reader and the driver [Sync].

    Go maps are [gmap]s with [string] keys, Go sets ([map[string]struct{}])
    are [gset]s, slices are lists and pointers that may be nil are options.
    [uint64] sizes are only ever compared, so they are numbers of [N].

    [Diff] is modelled in two layers.  The table loop ([Diff]) works on
    the desired model [structMap] and the live catalog [tableMap] in
    memory, for any type of catalog records and any projection of a record
    to a field.  [Diff_db] and [Sync] run it on a connection, after the
    struct loop and the catalog queries of the source and with its
    projection.  The Go parser, the libraries, the dialect and the server
    behind the connection are parameters. *)

From Stdlib Require Import String Ascii NArith Bool.
From stdpp Require Import gmap strings list fin_maps sorting pretty.

(** ** Outcomes of fallible code

    A Go function of this file either returns normally, returns an [error],
    or panics on a nil dereference or an index out of range. *)

Inductive outcome (A : Type) : Type :=
  | Ok (a : A)
  | Err (e : string)
  | Panic.

Arguments Ok {A} a.
Arguments Err {A} e.
Arguments Panic {A}.

#[global] Instance outcome_ret : MRet outcome := λ A a, Ok a.

#[global] Instance outcome_bind : MBind outcome := λ A B k x,
  match x with
  | Ok a => k a
  | Err e => Err e
  | Panic => Panic
  end.

(** ** Strings *)

(** [strings.Join(elems, sep)]. *)
Fixpoint Join (elems : list string) (sep : string) : string :=
  match elems with
  | [] => ""
  | [e] => e
  | e :: rest => e +:+ sep +:+ Join rest sep
  end.

(** Modelled from the spec: the helper [inStrings] is called by
    [isSameType] and [makeIndexMap] but is declared in another file of the
    package; section 4.5 uses it for "index name present in old but absent
    from new", that is membership of a string in a slice. *)
Definition inStrings (a : list string) (s : string) : bool :=
  existsb (String.eqb s) a.

(** ** The dialect adapter

    [dialect.Dialect] is an interface of another package; [Diff] only calls
    these four methods, so any implementation is a value of this record. *)

Module dialect.
Record Dialect : Type := {
  Quote : string → string;
  QuoteString : string → string;
  ColumnType : string → N → bool → string * bool;
  AutoIncrement : string
}.
End dialect.

Abbreviation Dialect := dialect.Dialect.

(** ** Data model *)

Record field : Type := mkField {
  Name : string;
  Typ : string;            (* Type *)
  Column : string;
  Comment : string;
  RawIndexes : list string;
  Unique : bool;
  PrimaryKey : bool;
  AutoIncrement : bool;
  Ignore : bool;
  Default : string;
  Size : N
}.

(** The zero value [&field{}]. *)
Definition zeroField : field :=
  mkField "" "" "" "" [] false false false false "" 0.

Record table : Type := mkTable {
  Fields : list field;
  Option : string
}.

Record index : Type := mkIndex {
  Columns : list string;
  index_Unique : bool      (* Unique *)
}.

Record modifiedField : Type := mkModified {
  old : option field;
  new : option field
}.

(** ** Type equivalence registry *)

Definition sameTypeClasses : list (list string) :=
  [ ["*int8"; "*bool"; "sql.NullBool"];
    ["int8"; "bool"];
    ["*uint"; "*uint32"];
    ["uint"; "uint32"];
    ["*int"; "*int32"];
    ["int"; "int32"];
    ["*int64"; "sql.NullInt64"];
    ["*string"; "sql.NullString"];
    ["*float32"; "*float64"; "sql.NullFloat64"];
    ["float32"; "float64"] ].

(** The two nested loops that fill the map: [m[t] = types]. *)
Definition registerClass (m : gmap string (list string)) (types : list string)
    : gmap string (list string) :=
  fold_left (λ m t, <[t := types]> m) types m.

Definition buildTypeMap (classes : list (list string)) : gmap string (list string) :=
  fold_left registerClass classes ∅.

Definition sameTypeMap : gmap string (list string) :=
  buildTypeMap sameTypeClasses.

(** A missing key reads as the nil slice. *)
Definition isSameType (t1 t2 : string) : bool :=
  String.eqb t1 t2 || inStrings (default [] (sameTypeMap !! t1)) t2.

(** ** Field methods *)

Definition Indexes (f : field) : list string :=
  map (λ index, if String.eqb index "" then Column f else index) (RawIndexes f).

Definition UniqueIndexes (f : field) : list string :=
  if Unique f then [Column f] else [].

(** Receiver and argument are pointers; Go's [||] is evaluated left to
    right and stops at the first true operand, so no field of a nil pointer
    is read. *)
Definition IsDifferent (f another : option field) : bool :=
  match f, another with
  | None, None => false
  | None, Some _ => true
  | Some _, None => true
  | Some f, Some another =>
      negb (isSameType (Typ f) (Typ another))
      || negb (String.eqb (Default f) (Default another))
      || negb (N.eqb (Size f) (Size another))
      || negb (String.eqb (Column f) (Column another))
      || negb (String.eqb (Comment f) (Comment another))
      || negb (Bool.eqb (AutoIncrement f) (AutoIncrement another))
      || negb (Bool.eqb (PrimaryKey f) (PrimaryKey another))
  end.

Definition IsAdded (f : modifiedField) : bool :=
  match old f, new f with None, Some _ => true | _, _ => false end.

Definition IsDropped (f : modifiedField) : bool :=
  match old f, new f with Some _, None => true | _, _ => false end.

Definition IsModified (f : modifiedField) : bool :=
  match old f, new f with Some _, Some _ => true | _, _ => false end.

(** ** Field-level differ *)

(** [for _, f := range fields { t[f.Column] = f }]: a later field with the
    same column replaces an earlier one. *)
Definition columnTable (fields : list field) : gmap string field :=
  fold_left (λ t f, <[Column f := f]> t) fields ∅.

Definition makeAlterTableFields (oldFields newFields : list field) : list modifiedField :=
  let oldTable := columnTable oldFields in
  let newTable := columnTable newFields in
  let fields :=
    fold_left (λ fields f,
      let oldF := oldTable !! Column f in
      if IsDifferent oldF (Some f)
      then fields ++ [mkModified oldF (Some f)]
      else fields) newFields [] in
  fold_left (λ fields f,
    match newTable !! Column f with
    | None => fields ++ [mkModified (Some f) None]
    | Some _ => fields
    end) oldFields fields.

(** ** Index differ *)

(** The block repeated four times in [makeIndexMap]:
    [if m[name] == nil { m[name] = &index{Unique: u} }] followed by
    [m[name].Columns = append(m[name].Columns, column)]. *)
Definition appendIndexColumn (m : gmap string index) (name : string) (u : bool)
    (column : string) : gmap string index :=
  let idx := default (mkIndex [] u) (m !! name) in
  <[name := mkIndex (Columns idx ++ [column]) (index_Unique idx)]> m.

(** One of the four inner loops: every [name] of [names] that is not in
    [others] adds [column] to the index [name] of [m]. *)
Definition collectIndexes (names others : list string) (u : bool) (column : string)
    (m : gmap string index) : gmap string index :=
  fold_left (λ m name,
    if negb (inStrings others name) then appendIndexColumn m name u column else m)
    names m.

(** The body of the loop over [newFields]; the state is the pair
    [(addIndexMap, dropIndexMap)]. *)
Definition indexStep (m : gmap string field)
    (maps : gmap string index * gmap string index) (f : field)
    : gmap string index * gmap string index :=
  let '(addIndexMap, dropIndexMap) := maps in
  let oldField := default zeroField (m !! Column f) in
  let oindexes := Indexes oldField in
  let nindexes := Indexes f in
  let oldUniqueIndexes := UniqueIndexes oldField in
  let newUniqueIndexes := UniqueIndexes f in
  let dropIndexMap := collectIndexes oindexes nindexes false (Column oldField) dropIndexMap in
  let dropIndexMap :=
    collectIndexes oldUniqueIndexes newUniqueIndexes true (Column oldField) dropIndexMap in
  let addIndexMap := collectIndexes nindexes oindexes false (Column f) addIndexMap in
  let addIndexMap :=
    collectIndexes newUniqueIndexes oldUniqueIndexes true (Column f) addIndexMap in
  (addIndexMap, dropIndexMap).

Definition makeIndexMap (oldFields newFields : list field)
    : gmap string index * gmap string index :=
  fold_left (indexStep (columnTable oldFields)) newFields (∅, ∅).

(** ** Column rendering *)

Definition formatDefault (d : Dialect) (t def : string) : string :=
  if String.eqb t "string" then dialect.QuoteString d def else def.

Definition columnSQL (d : Dialect) (f : field) : string :=
  let '(colType, null) := dialect.ColumnType d (Typ f) (Size f) (AutoIncrement f) in
  let column := [dialect.Quote d (Column f); colType] in
  let column := if negb null then column ++ ["NOT NULL"] else column in
  let column :=
    if negb (String.eqb (Default f) "")
    then column ++ ["DEFAULT"; formatDefault d (Typ f) (Default f)]
    else column in
  let column := if PrimaryKey f then column ++ ["PRIMARY KEY"] else column in
  let column :=
    if AutoIncrement f && negb (String.eqb (dialect.AutoIncrement d) "")
    then column ++ [dialect.AutoIncrement d]
    else column in
  let column :=
    if negb (String.eqb (Comment f) "")
    then column ++ ["COMMENT"; dialect.QuoteString d (Comment f)]
    else column in
  Join column " ".

(** ** Iterating over a Go map

    [for k, v := range m] visits every entry once, in an order the
    runtime chooses.  A [MapRange] is one such choice: any enumeration of
    the entries. *)

Record MapRange : Type := {
  range : ∀ {A : Type}, gmap string A → list (string * A);
  range_perm : ∀ (A : Type) (m : gmap string A), range m ≡ₚ map_to_list m
}.

(** The enumeration that [map_to_list] gives, used to run examples. *)
Definition keyOrder : MapRange :=
  {| range := λ A m, map_to_list m;
     range_perm := λ A m, reflexivity (map_to_list m) |}.

(** ** [sort.Strings]: ascending byte-wise order *)

(** [String.le] is the order of [String.leb], which compares byte by
    byte. *)
Definition sortStrings (names : list string) : list string :=
  merge_sort String.le names.

(** ** The reconciliation loop of [Diff] *)

(** The variables of [Diff] that live across table passes. *)
Record diffState (C : Type) : Type := mkState {
  migrations : list string;
  oldFields : list field;
  droppedColumn : gset string;
  structMap : gmap string table;
  tableMap : gmap string (list C)
}.

Arguments mkState {C} _ _ _ _ _.
Arguments migrations {C} _.
Arguments oldFields {C} _.
Arguments droppedColumn {C} _.
Arguments structMap {C} _.
Arguments tableMap {C} _.

(** Reading through a pointer: nil panics. *)
Definition deref {A : Type} (p : option A) : outcome A :=
  match p with
  | Some a => Ok a
  | None => Panic
  end.

Definition nl : string := String (ascii_of_nat 10) EmptyString.

Section Diff.

(** [o] is the runtime's map iteration order and [d] the dialect.  [C] is
    the type of the catalog's column records and [project] the projection
    of one record to a field, that is [c.fieldAST()] followed by
    [newField(fmt.Sprint(oldFieldAST.Type), oldFieldAST)]; both go through
    go/ast, strconv and reflect, and either may fail. *)
Context (o : MapRange) (d : Dialect) {C : Type} (project : C → outcome field).

(** The loop over [columns]: each projected field is appended to
    [oldFields], the first failure is returned. *)
Fixpoint appendProjected (oldFields : list field) (columns : list C)
    : outcome (list field) :=
  match columns with
  | [] => Ok oldFields
  | c :: rest =>
      f ← project c;
      appendProjected (oldFields ++ [f]) rest
  end.

(** One iteration of the [switch] over a classified change. *)
Definition alterSQL (tableName : string) (f : modifiedField) : list string :=
  match old f, new f with
  | None, Some fnew =>          (* f.IsAdded() *)
      ["ALTER TABLE " +:+ tableName +:+ " ADD " +:+ dialect.Quote d (Column fnew)]
  | Some fold, None =>          (* f.IsDropped() *)
      ["ALTER TABLE " +:+ tableName +:+ " DROP " +:+ dialect.Quote d (Column fold)]
  | Some fold, Some fnew =>     (* f.IsModified() *)
      let specs :=
        if negb (Bool.eqb (PrimaryKey fold) (PrimaryKey fnew)) && negb (PrimaryKey fnew)
        then ["DROP PRIMARY KEY"] else [] in
      let specs := specs ++ ["MODIFY " +:+ columnSQL d fnew] in
      ["ALTER TABLE " +:+ tableName +:+ " " +:+ Join specs ", "]
  | None, None => []
  end.

Definition alterStatements (tableName : string) (fields : list modifiedField)
    (migrations : list string) : list string :=
  fold_left (λ migrations f, migrations ++ alterSQL tableName f) fields migrations.

(** The second loop over [fields]: the columns of the dropped ones join
    [droppedColumn]. *)
Definition recordDropped (fields : list modifiedField) (droppedColumn : gset string)
    : gset string :=
  fold_left (λ dropped f,
    match old f, new f with
    | Some fold, None => {[Column fold]} ∪ dropped
    | _, _ => dropped
    end) fields droppedColumn.

Definition createTableSQL (tableName : string) (tbl : table) : string :=
  let columns := map (columnSQL d) (Fields tbl) in
  let query :=
    "CREATE TABLE " +:+ tableName +:+ " (" +:+ nl +:+ "  "
      +:+ Join columns ("," +:+ nl +:+ "  ") +:+ nl +:+ ")" in
  if negb (String.eqb (Option tbl) "") then query +:+ " " +:+ Option tbl else query.

Definition dropIndexSQL (tableName : string) (entry : string * index) : string :=
  "DROP INDEX " +:+ dialect.Quote d entry.1 +:+ " ON " +:+ tableName.

Definition createIndexSQL (tableName : string) (entry : string * index) : string :=
  let columns := map (dialect.Quote d) (Columns entry.2) in
  if index_Unique entry.2
  then "CREATE UNIQUE INDEX " +:+ dialect.Quote d entry.1 +:+ " ON " +:+ tableName
         +:+ " (" +:+ Join columns "," +:+ ")"
  else "CREATE INDEX " +:+ dialect.Quote d entry.1 +:+ " ON " +:+ tableName
         +:+ " (" +:+ Join columns "," +:+ ")".

(** The loop over [dropIndexMap]; [index.Columns[0]] panics on an index
    without columns. *)
Fixpoint dropIndexStatements (tableName : string) (droppedColumn : gset string)
    (entries : list (string * index)) (migrations : list string)
    : outcome (list string) :=
  match entries with
  | [] => Ok migrations
  | entry :: rest =>
      match Columns entry.2 with
      | [] => Panic
      | first :: _ =>
          if decide (first ∈ droppedColumn)
          then dropIndexStatements tableName droppedColumn rest migrations
          else dropIndexStatements tableName droppedColumn rest
                 (migrations ++ [dropIndexSQL tableName entry])
      end
  end.

Definition createIndexStatements (tableName : string)
    (entries : list (string * index)) (migrations : list string) : list string :=
  fold_left (λ migrations entry, migrations ++ [createIndexSQL tableName entry])
    entries migrations.

(** The first half of a pass: the ALTER plan of a live table, or the
    CREATE TABLE of a missing one.  The result is the new value of
    [(migrations, oldFields, droppedColumn)]. *)
Definition fieldPass (st : diffState C) (name : string)
    : outcome (list string * list field * gset string) :=
  let tbl := structMap st !! name in
  let tableName := dialect.Quote d name in
  match tableMap st !! name with
  | Some columns =>
      oldFields ← appendProjected (oldFields st) columns;
      tbl ← deref tbl;
      let fields := makeAlterTableFields oldFields (Fields tbl) in
      Ok (alterStatements tableName fields (migrations st),
          oldFields,
          recordDropped fields (droppedColumn st))
  | None =>
      tbl ← deref tbl;
      Ok (migrations st ++ [createTableSQL tableName tbl],
          oldFields st,
          droppedColumn st)
  end.

(** The body of [for _, name := range names]. *)
Definition tablePass (st : diffState C) (name : string) : outcome (diffState C) :=
  let tbl := structMap st !! name in
  let tableName := dialect.Quote d name in
  r ← fieldPass st name;
  let '(migrations, oldFields, droppedColumn) := r in
  tbl ← deref tbl;
  let '(addIndexMap, dropIndexMap) := makeIndexMap oldFields (Fields tbl) in
  migrations ←
    dropIndexStatements tableName droppedColumn (range o dropIndexMap) migrations;
  let migrations := createIndexStatements tableName (range o addIndexMap) migrations in
  Ok (mkState migrations oldFields droppedColumn
        (delete name (structMap st)) (delete name (tableMap st))).

Fixpoint diffLoop (names : list string) (st : diffState C) : outcome (diffState C) :=
  match names with
  | [] => Ok st
  | name :: rest =>
      st ← tablePass st name;
      diffLoop rest st
  end.

Definition tableNames (structMap : gmap string table) : list string :=
  sortStrings (map fst (range o structMap)).

Definition dropTableStatements (entries : list (string * list C))
    (migrations : list string) : list string :=
  fold_left (λ migrations entry,
    migrations ++ ["DROP TABLE " +:+ dialect.Quote d entry.1]) entries migrations.

(** [Diff] from the point where the desired model ([structMap], here
    [desired]) and the live catalog ([tableMap], here [live]) have been
    read. *)
Definition Diff (desired : gmap string table) (live : gmap string (list C))
    : outcome (list string) :=
  let names := tableNames desired in
  st ← diffLoop names (mkState [] [] ∅ desired live);
  Ok (dropTableStatements (range o (tableMap st)) (migrations st)).

End Diff.


(** ** Library functions used by the parser and the catalog projection *)

(** [strings.Contains]. *)
Fixpoint Contains (s substr : string) : bool :=
  String.prefix substr s
  || match s with
     | EmptyString => false
     | String _ rest => Contains rest substr
     end.

(** [strings.Split(s, sep)] for a separator [sep] of one byte: the pieces
    of [s] between the separators, one piece more than separators. *)
Fixpoint Split (s : string) (sep : ascii) : list string :=
  match s with
  | EmptyString => [""]
  | String c rest =>
      if Ascii.eqb c sep then "" :: Split rest sep
      else match Split rest sep with
           | first :: others => String c first :: others
           | [] => [String c ""]
           end
  end.

(** [strings.SplitN(s, sep, 2)] for a separator of one byte: [s] cut at
    the first separator, or [s] alone. *)
Fixpoint SplitN2 (s : string) (sep : ascii) : list string :=
  match s with
  | EmptyString => [""]
  | String c rest =>
      if Ascii.eqb c sep then [""; rest]
      else match SplitN2 rest sep with
           | first :: others => String c first :: others
           | [] => [String c ""]
           end
  end.

(** [strconv.ParseUint(s, 10, 64)]: the bytes are read from the left; a
    byte that is not a decimal digit is a syntax error, a value over
    [2^64 - 1] a range error, whichever comes first. *)
Inductive numError : Type := ErrSyntax | ErrRange.

Definition maxUint64 : N := 18446744073709551615.

Definition digitValue (c : ascii) : option N :=
  let n := N_of_ascii c in
  if (48 <=? n)%N && (n <=? 57)%N then Some (n - 48)%N else None.

Fixpoint parseDigits (s : string) (n : N) : numError + N :=
  match s with
  | EmptyString => inr n
  | String c rest =>
      match digitValue c with
      | None => inl ErrSyntax
      | Some digit =>
          if (maxUint64 <? n * 10 + digit)%N then inl ErrRange
          else parseDigits rest (n * 10 + digit)%N
      end
  end.

Definition ParseUint (s : string) : numError + N :=
  if String.eqb s "" then inl ErrSyntax else parseDigits s 0.

(** The functions of other packages that are taken as they are. *)
Record golib : Type := {
  ToUpper : string → string;                 (* strings.ToUpper *)
  TrimSpace : string → string;               (* strings.TrimSpace *)
  ToSnakeCase : string → string;             (* stringutil.ToSnakeCase *)
  ToUpperCamelCase : string → string;        (* stringutil.ToUpperCamelCase *)
  IsExported : string → bool;                (* ast.IsExported *)
  Unquote : string → string + string;        (* strconv.Unquote: error or value *)
  TagGet : string → string → string;         (* reflect.StructTag.Get *)
  CommentText : list string → string;        (* CommentGroup.Text *)
  NumErrorText : string → numError → string  (* NumError.Error *)
}.

(** ** The source model: [go/ast] nodes as far as the code reads them *)

Inductive expr : Type :=
  | Ident (name : string)
  | SelectorExpr (X : expr) (Sel : string)
  | StarExpr (X : expr)
  | OtherExpr (goType : string).   (* any other node; [%T] prints [goType] *)

(** [ast.Field]: [Comment] holds the texts of the comment group. *)
Record astField : Type := mkAstField {
  Names : list string;
  Type_ : expr;                    (* Type *)
  Tag : option string;             (* Tag.Value *)
  FieldComment : option (list string)   (* Comment *)
}.

Record structAST : Type := mkStructAST {
  StructFields : list astField;    (* StructType.Fields.List *)
  AnnotationOption : string        (* Annotation.Option *)
}.

(** [detectTypeName] on the type of a field. *)
Fixpoint detectTypeName (n : expr) : outcome string :=
  match n with
  | Ident name => Ok name
  | SelectorExpr X Sel =>
      name ← detectTypeName X;
      Ok (name +:+ "." +:+ Sel)
  | StarExpr X =>
      name ← detectTypeName X;
      Ok ("*" +:+ name)
  | OtherExpr goType => Err ("migu: BUG: unknown type " +:+ goType)
  end.

(** ** Struct tags *)

Definition tagDefault : string := "default".
Definition tagPrimaryKey : string := "pk".
Definition tagAutoIncrement : string := "autoincrement".
Definition tagIndex : string := "index".
Definition tagUnique : string := "unique".
Definition tagSize : string := "size".
Definition tagColumn : string := "column".
Definition tagIgnore : string := "-".

Definition defaultVarcharSize : N := 255.

Definition setDefault (f : field) (v : string) : field :=
  mkField (Name f) (Typ f) (Column f) (Comment f) (RawIndexes f) (Unique f)
    (PrimaryKey f) (AutoIncrement f) (Ignore f) v (Size f).

Definition setPrimaryKey (f : field) : field :=
  mkField (Name f) (Typ f) (Column f) (Comment f) (RawIndexes f) (Unique f)
    true (AutoIncrement f) (Ignore f) (Default f) (Size f).

Definition setAutoIncrement (f : field) : field :=
  mkField (Name f) (Typ f) (Column f) (Comment f) (RawIndexes f) (Unique f)
    (PrimaryKey f) true (Ignore f) (Default f) (Size f).

Definition addRawIndex (f : field) (name : string) : field :=
  mkField (Name f) (Typ f) (Column f) (Comment f) (RawIndexes f ++ [name]) (Unique f)
    (PrimaryKey f) (AutoIncrement f) (Ignore f) (Default f) (Size f).

Definition setUnique (f : field) : field :=
  mkField (Name f) (Typ f) (Column f) (Comment f) (RawIndexes f) true
    (PrimaryKey f) (AutoIncrement f) (Ignore f) (Default f) (Size f).

Definition setIgnore (f : field) : field :=
  mkField (Name f) (Typ f) (Column f) (Comment f) (RawIndexes f) (Unique f)
    (PrimaryKey f) (AutoIncrement f) true (Default f) (Size f).

Definition setColumn (f : field) (v : string) : field :=
  mkField (Name f) (Typ f) v (Comment f) (RawIndexes f) (Unique f)
    (PrimaryKey f) (AutoIncrement f) (Ignore f) (Default f) (Size f).

Definition setSize (f : field) (v : N) : field :=
  mkField (Name f) (Typ f) (Column f) (Comment f) (RawIndexes f) (Unique f)
    (PrimaryKey f) (AutoIncrement f) (Ignore f) (Default f) v.

Definition setComment (f : field) (v : string) : field :=
  mkField (Name f) (Typ f) (Column f) v (RawIndexes f) (Unique f)
    (PrimaryKey f) (AutoIncrement f) (Ignore f) (Default f) (Size f).

Section Parser.

Context (lib : golib).

(** The body of the loop of [parseStructTag] for one option [opt]. *)
Definition applyOption (f : field) (opt : string) : outcome field :=
  match SplitN2 opt ":" with
  | [] => Panic                       (* optval[0] *)
  | key :: params =>
      if String.eqb key tagDefault then
        match params with
        | param :: _ => Ok (setDefault f param)
        | [] => Ok f
        end
      else if String.eqb key tagPrimaryKey then Ok (setPrimaryKey f)
      else if String.eqb key tagAutoIncrement then Ok (setAutoIncrement f)
      else if String.eqb key tagIndex then
        match params with
        | [param] => Ok (addRawIndex f param)
        | _ => Ok (addRawIndex f "")
        end
      else if String.eqb key tagUnique then Ok (setUnique f)
      else if String.eqb key tagIgnore then Ok (setIgnore f)
      else if String.eqb key tagColumn then
        match params with
        | param :: _ => Ok (setColumn f param)
        | [] => Err "`column` tag must specify the parameter"
        end
      else if String.eqb key tagSize then
        match params with
        | param :: _ =>
            match ParseUint param with
            | inl e => Err (NumErrorText lib param e)
            | inr size => Ok (setSize f size)
            end
        | [] => Err "`size' tag must specify the parameter"
        end
      else Err ("unknown option: `" +:+ opt +:+ "'")
  end.

Fixpoint applyOptions (f : field) (opts : list string) : outcome field :=
  match opts with
  | [] => Ok f
  | opt :: rest =>
      f ← applyOption f opt;
      applyOptions f rest
  end.

(** [parseStructTag] from the value [migu] of the tag's [migu] key. *)
Definition parseMigu (f : field) (migu : string) : outcome field :=
  if String.eqb migu "" then Ok f
  else applyOptions f (Split migu ",").

Definition parseStructTag (f : field) (tag : string) : outcome field :=
  parseMigu f (TagGet lib tag "migu").

(** [newField]; [f.Names[0]] panics on a field without a name. *)
Definition newField (typeName : string) (f : astField) : outcome field :=
  match Names f with
  | [] => Panic
  | name :: _ =>
      let ret := mkField name typeName "" "" [] false false false false ""
                   defaultVarcharSize in
      ret ←
        match Tag f with
        | Some value =>
            match Unquote lib value with
            | inl e => Err e
            | inr s => parseStructTag ret s
            end
        | None => Ok ret
        end;
      let ret :=
        match FieldComment f with
        | Some texts => setComment ret (TrimSpace lib (CommentText lib texts))
        | None => ret
        end in
      let ret :=
        if String.eqb (Column ret) "" then setColumn ret (ToSnakeCase lib (Name ret))
        else ret in
      Ok ret
  end.

(** The loop of [Diff] over the fields of one struct: the fields that
    enter the table [name] of [structMap]. *)
Definition addStructField (name : string) (option : string)
    (structMap : gmap string table) (fld : astField) : outcome (gmap string table) :=
  typeName ← detectTypeName (Type_ fld);
  f ← newField typeName fld;
  if Ignore f then Ok structMap
  else if negb (IsExported lib (Name f)
                || (String.eqb (Name f) "_" && negb (String.eqb (Name f) (Column f))))
  then Ok structMap
  else
    let tbl := default (mkTable [] option) (structMap !! name) in
    Ok (<[name := mkTable (Fields tbl ++ [f]) (Option tbl)]> structMap).

Fixpoint addStructFields (name : string) (option : string)
    (structMap : gmap string table) (flds : list astField)
    : outcome (gmap string table) :=
  match flds with
  | [] => Ok structMap
  | fld :: rest =>
      structMap ← addStructField name option structMap fld;
      addStructFields name option structMap rest
  end.

Fixpoint addStructs (entries : list (string * structAST))
    (structMap : gmap string table) : outcome (gmap string table) :=
  match entries with
  | [] => Ok structMap
  | (name, ast) :: rest =>
      structMap ←
        addStructFields name (AnnotationOption ast) structMap (StructFields ast);
      addStructs rest structMap
  end.

(** The first loop of [Diff]: the desired model, from the parsed
    structs. *)
Definition makeStructMap (o : MapRange) (structASTMap : gmap string structAST)
    : outcome (gmap string table) :=
  addStructs (range o structASTMap) ∅.

End Parser.

(** ** The catalog *)

(** [sql.NullString] and [*uint64] are options: [None] is a NULL. *)
Record columnSchema : Type := mkColumnSchema {
  TableName : string;
  ColumnName : string;
  OrdinalPosition : Z;
  ColumnDefault : option string;
  IsNullable : string;
  DataType : string;
  CharacterMaximumLength : option N;
  CharacterOctetLength : option Z;
  NumericPrecision : option Z;
  NumericScale : option Z;
  ColumnType : string;
  ColumnKey : string;
  Extra : string;
  ColumnComment : string;
  NonUnique : Z;
  IndexName : string
}.

Record indexInfo : Type := mkIndexInfo {
  info_NonUnique : Z;              (* NonUnique *)
  info_IndexName : string          (* IndexName *)
}.

Section Catalog.

Context (lib : golib).

Definition isUnsigned (schema : columnSchema) : bool :=
  Contains (ColumnType schema) "unsigned".

Definition isNullable (schema : columnSchema) : bool :=
  String.eqb (ToUpper lib (IsNullable schema)) "YES".

Definition hasPrimaryKey (schema : columnSchema) : bool :=
  String.eqb (ColumnKey schema) "PRI"
  && String.eqb (ToUpper lib (IndexName schema)) "PRIMARY".

Definition hasAutoIncrement (schema : columnSchema) : bool :=
  String.eqb (Extra schema) "auto_increment".

Definition hasIndex (schema : columnSchema) : bool :=
  negb (String.eqb (IndexName schema) "") && negb (hasPrimaryKey schema)
  && negb (Z.eqb (NonUnique schema) 0).

Definition hasUniqueKey (schema : columnSchema) : bool :=
  negb (String.eqb (IndexName schema) "") && negb (hasPrimaryKey schema)
  && Z.eqb (NonUnique schema) 0.

Definition hasSize (schema : columnSchema) : bool :=
  String.eqb (DataType schema) "varchar"
  && bool_decide (CharacterMaximumLength schema ≠ None).

Definition GoFieldTypes (schema : columnSchema) : outcome (list string) :=
  let t := DataType schema in
  if String.eqb t "tinyint" then
    if isUnsigned schema then
      if isNullable schema then Ok ["*uint8"] else Ok ["uint8"]
    else
      if isNullable schema then Ok ["*int8"; "*bool"; "sql.NullBool"]
      else Ok ["int8"; "bool"]
  else if String.eqb t "smallint" then
    if isUnsigned schema then
      if isNullable schema then Ok ["*uint16"] else Ok ["uint16"]
    else
      if isNullable schema then Ok ["*int16"] else Ok ["int16"]
  else if String.eqb t "mediumint" || String.eqb t "int" then
    if isUnsigned schema then
      if isNullable schema then Ok ["*uint"; "*uint32"] else Ok ["uint"; "uint32"]
    else
      if isNullable schema then Ok ["*int"; "*int32"] else Ok ["int"; "int32"]
  else if String.eqb t "bigint" then
    if isUnsigned schema then
      if isNullable schema then Ok ["*uint64"] else Ok ["uint64"]
    else
      if isNullable schema then Ok ["*int64"; "sql.NullInt64"] else Ok ["int64"]
  else if String.eqb t "varchar" || String.eqb t "text"
          || String.eqb t "mediumtext" || String.eqb t "longtext" then
    if isNullable schema then Ok ["*string"; "sql.NullString"] else Ok ["string"]
  else if String.eqb t "datetime" then
    if isNullable schema then Ok ["*time.Time"] else Ok ["time.Time"]
  else if String.eqb t "double" then
    if isNullable schema then Ok ["*float32"; "*float64"; "sql.NullFloat64"]
    else Ok ["float32"; "float64"]
  else Err ("BUG: unexpected data type: " +:+ t).

(** The options that [fieldAST] writes into the tag, in its order. *)
Definition fieldTags (schema : columnSchema) : list string :=
  let tags := [] in
  let tags :=
    match ColumnDefault schema with
    | Some v => tags ++ [tagDefault +:+ ":" +:+ v]
    | None => tags
    end in
  let tags := if hasPrimaryKey schema then tags ++ [tagPrimaryKey] else tags in
  let tags := if hasAutoIncrement schema then tags ++ [tagAutoIncrement] else tags in
  let tags :=
    if hasIndex schema then
      if String.eqb (IndexName schema) (ColumnName schema) then tags ++ [tagIndex]
      else tags ++ [tagIndex +:+ ":" +:+ IndexName schema]
    else tags in
  let tags := if hasUniqueKey schema then tags ++ [tagUnique] else tags in
  let tags :=
    if hasSize schema then
      match CharacterMaximumLength schema with
      | Some n =>
          if negb (N.eqb n defaultVarcharSize)
          then tags ++ [tagSize +:+ ":" +:+ pretty n]
          else tags
      | None => tags               (* excluded by hasSize *)
      end
    else tags in
  tags.

Definition dq : string := String (ascii_of_nat 34) EmptyString.

(** [fieldAST]. *)
Definition fieldAST (schema : columnSchema) : outcome astField :=
  types ← GoFieldTypes schema;
  match types with
  | [] => Panic                      (* types[0] *)
  | type0 :: _ =>
      let tags := fieldTags schema in
      Ok (mkAstField
            [ToUpperCamelCase lib (ColumnName schema)]
            (Ident type0)
            (if bool_decide (tags ≠ [])
             then Some ("`migu:" +:+ dq +:+ Join tags "," +:+ dq +:+ "`")
             else None)
            (if negb (String.eqb (ColumnComment schema) "")
             then Some [" // " +:+ ColumnComment schema]
             else None))
  end.

(** The projection of a catalog column in [Diff]: [c.fieldAST()], then
    [newField(fmt.Sprint(oldFieldAST.Type), oldFieldAST)].  The type that
    [fieldAST] writes is an identifier, which [fmt.Sprint] prints by its
    name. *)
Definition projectColumn (c : columnSchema) : outcome field :=
  oldFieldAST ← fieldAST c;
  match Type_ oldFieldAST with
  | Ident name => newField lib name oldFieldAST
  | _ => Panic                       (* not written by fieldAST *)
  end.

(** The loop of [getIndexMap] over the rows it has scanned. *)
Definition addIndexRow (indexMap : gmap string (gmap string indexInfo))
    (row : string * string * indexInfo) : gmap string (gmap string indexInfo) :=
  let '(tableName, columnName, index) := row in
  let columns := default ∅ (indexMap !! tableName) in
  <[tableName := <[columnName := index]> columns]> indexMap.

Definition indexRows (rows : list (string * string * indexInfo))
    : gmap string (gmap string indexInfo) :=
  fold_left addIndexRow rows ∅.

(** The loop of [getTableMap] over the rows it has scanned: the column
    joins its table, with the index it is found under in [indexMap]. *)
Definition withIndex (indexMap : gmap string (gmap string indexInfo))
    (schema : columnSchema) : columnSchema :=
  match indexMap !! TableName schema ≫= (λ tableIndex, tableIndex !! ColumnName schema) with
  | Some info =>
      mkColumnSchema (TableName schema) (ColumnName schema) (OrdinalPosition schema)
        (ColumnDefault schema) (IsNullable schema) (DataType schema)
        (CharacterMaximumLength schema) (CharacterOctetLength schema)
        (NumericPrecision schema) (NumericScale schema) (ColumnType schema)
        (ColumnKey schema) (Extra schema) (ColumnComment schema)
        (info_NonUnique info) (info_IndexName info)
  | None => schema
  end.

Definition addColumnRow (indexMap : gmap string (gmap string indexInfo))
    (tableMap : gmap string (list columnSchema)) (schema : columnSchema)
    : gmap string (list columnSchema) :=
  <[TableName schema :=
      default [] (tableMap !! TableName schema) ++ [withIndex indexMap schema]]>
    tableMap.

Definition columnRows (indexMap : gmap string (gmap string indexInfo))
    (rows : list columnSchema) : gmap string (list columnSchema) :=
  fold_left (addColumnRow indexMap) rows ∅.

(** [hasDatetimeColumn]: the two loops return at the first [datetime]
    column they meet. *)
Definition hasDatetimeColumn (o : MapRange) (t : gmap string (list columnSchema))
    : bool :=
  existsb (λ entry : string * list columnSchema,
             existsb (λ schema, String.eqb (DataType schema) "datetime") entry.2)
    (range o t).

(** The loop of [makeStructAST] over the columns. *)
Fixpoint structFields (schemas : list columnSchema) (fields : list astField)
    : outcome (list astField) :=
  match schemas with
  | [] => Ok fields
  | schema :: rest =>
      f ← fieldAST schema;
      structFields rest (fields ++ [f])
  end.

(** [makeStructAST]: the declaration as the name of the type and the
    fields of the struct. *)
Definition makeStructAST (name : string) (schemas : list columnSchema)
    : outcome (string * list astField) :=
  fields ← structFields schemas [];
  Ok (ToUpperCamelCase lib name, fields).

End Catalog.

(** ** The connection

    [database/sql] and the server behind it are external.  A connection
    is the state of the server, of a type [S], with the calls made on it so
    far.  What a query returns, which statements fail, and what a
    statement, a rollback or a commit does to the state is the server's
    business ([sql.engine]): a server that applies every statement at once
    and has nothing to roll back is an engine like any other. *)

Module sql.

Inductive call : Type :=
  | QueryRow (query : string)
  | Query (query arg : string)
  | Begin
  | Exec (query : string)
  | Rollback
  | Commit.

(** The queries return their rows, or the first error of [Query], [Scan]
    or [Err]; [begin] returns the error or the state with the transaction
    open; [exec] and [commit] return the error, if any, and the state they
    leave. *)
Record engine (S : Type) : Type := {
  currentDatabase : S → string + string;
  statistics : S → string → string + list (string * string * indexInfo);
  columns : S → string → string + list columnSchema;
  begin : S → string + S;
  exec : string → S → option string * S;
  rollback : S → S;
  commit : S → option string * S
}.

Arguments currentDatabase {S} _ _.
Arguments statistics {S} _ _ _.
Arguments columns {S} _ _ _.
Arguments begin {S} _ _.
Arguments exec {S} _ _ _.
Arguments rollback {S} _ _.
Arguments commit {S} _ _.

Record DB (S : Type) : Type := mkDB {
  data : S;
  calls : list call
}.

Arguments mkDB {S} _ _.
Arguments data {S} _.
Arguments calls {S} _.

End sql.

(** Code that works on a connection: it returns, fails or panics, and
    leaves the connection as its calls have made it. *)
Definition conn (S A : Type) : Type := sql.DB S → outcome A * sql.DB S.

#[global] Instance conn_ret {S : Type} : MRet (conn S) := λ A a db, (Ok a, db).

#[global] Instance conn_bind {S : Type} : MBind (conn S) := λ A B k m db,
  match m db with
  | (Ok a, db) => k a db
  | (Err e, db) => (Err e, db)
  | (Panic, db) => (Panic, db)
  end.

(** Code that does not use the connection. *)
Definition lift {S A : Type} (x : outcome A) : conn S A := λ db, (x, db).

Definition statisticsQuery : string :=
  Join ["SELECT";
        "  TABLE_NAME,";
        "  COLUMN_NAME,";
        "  NON_UNIQUE,";
        "  INDEX_NAME";
        "FROM information_schema.STATISTICS";
        "WHERE TABLE_SCHEMA = ?"] nl.

Definition columnsQuery : string :=
  Join ["SELECT";
        "  TABLE_NAME,";
        "  COLUMN_NAME,";
        "  COLUMN_DEFAULT,";
        "  IS_NULLABLE,";
        "  DATA_TYPE,";
        "  CHARACTER_MAXIMUM_LENGTH,";
        "  CHARACTER_OCTET_LENGTH,";
        "  NUMERIC_PRECISION,";
        "  NUMERIC_SCALE,";
        "  COLUMN_TYPE,";
        "  COLUMN_KEY,";
        "  EXTRA,";
        "  COLUMN_COMMENT";
        "FROM information_schema.COLUMNS";
        "WHERE TABLE_SCHEMA = ?";
        "ORDER BY TABLE_NAME, ORDINAL_POSITION"] nl.

Section Connection.

Context (lib : golib) (o : MapRange) (d : Dialect).
Context {S : Type} (eng : sql.engine S).

(** A call on the connection is recorded. *)
Definition called (c : sql.call) : conn S () := λ db,
  (Ok (), sql.mkDB (sql.data db) (sql.calls db ++ [c])).

(** What a query gives on the present state. *)
Definition answer {A : Type} (rows : S → string + A) : conn S A := λ db,
  (match rows (sql.data db) with inl e => Err e | inr a => Ok a end, db).

Definition getCurrentDBName : conn S string :=
  called (sql.QueryRow "SELECT DATABASE()");;
  answer (sql.currentDatabase eng).

Definition getIndexMap (dbname : string) : conn S (gmap string (gmap string indexInfo)) :=
  called (sql.Query statisticsQuery dbname);;
  rows ← answer (λ s, sql.statistics eng s dbname);
  mret (indexRows rows).

Definition getTableMap : conn S (gmap string (list columnSchema)) :=
  dbname ← getCurrentDBName;
  indexMap ← getIndexMap dbname;
  called (sql.Query columnsQuery dbname);;
  rows ← answer (λ s, sql.columns eng s dbname);
  mret (columnRows indexMap rows).

(** [Diff(db, filename, src)] as a whole.  [parsed] is what
    [makeStructASTMap(filename, src)] returns: go/parser and the
    annotation parser are not part of the model. *)
Definition Diff_db (parsed : outcome (gmap string structAST)) : conn S (list string) :=
  structASTMap ← lift parsed;
  structMap ← lift (makeStructMap lib o structASTMap);
  tableMap ← getTableMap;
  lift (Diff o d (projectColumn lib) structMap tableMap).

(** [db.Begin()]. *)
Definition beginTx : conn S () := λ db,
  let log := sql.calls db ++ [sql.Begin] in
  match sql.begin eng (sql.data db) with
  | inl e => (Err e, sql.mkDB (sql.data db) log)
  | inr tx => (Ok (), sql.mkDB tx log)
  end.

(** [for _, sql := range sqls { if _, err := tx.Exec(sql); err != nil {
    tx.Rollback(); return err } }]. *)
Fixpoint execAll (sqls : list string) : conn S () :=
  match sqls with
  | [] => mret ()
  | query :: rest => λ db,
      let '(err, s) := sql.exec eng query (sql.data db) in
      let log := sql.calls db ++ [sql.Exec query] in
      match err with
      | Some e => (Err e, sql.mkDB (sql.rollback eng s) (log ++ [sql.Rollback]))
      | None => execAll rest (sql.mkDB s log)
      end
  end.

(** [tx.Commit()]. *)
Definition commitTx : conn S () := λ db,
  let '(err, s) := sql.commit eng (sql.data db) in
  (match err with Some e => Err e | None => Ok () end,
   sql.mkDB s (sql.calls db ++ [sql.Commit])).

Definition Sync (parsed : outcome (gmap string structAST)) : conn S () :=
  sqls ← Diff_db parsed;
  beginTx;;
  execAll sqls;;
  commitTx.

End Connection.


(** ** Values used in examples *)

(** A small dialect: identifiers between backquotes, string literals
    between single quotes, four column types. *)
Definition sampleDialect : Dialect :=
  {| dialect.Quote := λ s, "`" +:+ s +:+ "`";
     dialect.QuoteString := λ s, "'" +:+ s +:+ "'";
     dialect.ColumnType := λ t _ _,
       if String.eqb t "string" then ("VARCHAR(255)", false)
       else if String.eqb t "*string" then ("VARCHAR(255)", true)
       else if String.eqb t "int" then ("INT", false)
       else if String.eqb t "*int" then ("INT", true)
       else (t, false);
     dialect.AutoIncrement := "AUTO_INCREMENT" |}.

(** A field as [newField] leaves it when the tag is empty: size 255. *)
Definition plainField (name type column : string) : field :=
  mkField name type column "" [] false false false false "" 255.

(** Catalogs given by their projected fields. *)
Definition projected (f : field) : outcome field := Ok f.

(** Scenario 2: the live table [user] has the one column [age int NULL];
    the desired model has no [age] and a unique [email string]. *)
Definition ageColumn : field := plainField "Age" "*int" "age".

Definition emailField : field :=
  mkField "Email" "string" "email" "" [] true false false false "" 255.

Definition emailPlain : field := plainField "Email" "string" "email".

Definition scenario2_desired : gmap string table :=
  {[ "user" := mkTable [emailField] "" ]}.

Definition scenario2_live : gmap string (list field) :=
  {[ "user" := [ageColumn] ]}.

(** Two tables that already match the live catalog. *)
Definition xField : field := plainField "X" "int" "x".
Definition yField : field := plainField "Y" "int" "y".

Definition matching_desired : gmap string table :=
  {[ "a" := mkTable [xField] ""; "b" := mkTable [yField] "" ]}.

Definition matching_live : gmap string (list field) :=
  {[ "a" := [xField]; "b" := [yField] ]}.

(** A live table [user] with column [age]; the desired model keeps [age]
    and adds [email string]. *)
Definition addEmail_desired : gmap string table :=
  {[ "user" := mkTable [ageColumn; emailPlain] "" ]}.

Definition nameField : field := plainField "Name" "string" "name".

(** Table [a] loses its column [x]; table [b] keeps its columns [x] and
    [y], and its [x] is no longer indexed. *)
Definition xIndexed : field :=
  mkField "X" "int" "x" "" [""] false false false false "" 255.

Definition spans_desired : gmap string table :=
  {[ "a" := mkTable [yField] ""; "b" := mkTable [xField; yField] "" ]}.

Definition spans_live : gmap string (list field) :=
  {[ "a" := [xField; yField]; "b" := [xIndexed; yField] ]}.

(** [f] with other raw indexes and another unique flag, everything else
    unchanged. *)
Definition withIndexes (f : field) (rawIndexes : list string) (unique : bool) : field :=
  mkField (Name f) (Typ f) (Column f) (Comment f) rawIndexes unique
    (PrimaryKey f) (AutoIncrement f) (Ignore f) (Default f) (Size f).

(** The state after [sqls] have run one after the other, and whether
    none of them fails. *)
Definition afterExecs {S : Type} (eng : sql.engine S) (sqls : list string) (s : S) : S :=
  fold_left (λ s query, (sql.exec eng query s).2) sqls s.

Fixpoint allSucceed {S : Type} (eng : sql.engine S) (sqls : list string) (s : S)
    : bool :=
  match sqls with
  | [] => true
  | query :: rest =>
      match sql.exec eng query s with
      | (Some _, _) => false
      | (None, s) => allSucceed eng rest s
      end
  end.

(** The engine supports transactions: a rollback gives back the state in
    which the transaction was opened, whatever statements have run in
    it. *)
Definition supportsTransactions {S : Type} (eng : sql.engine S) : Prop :=
  ∀ (s tx : S) (sqls : list string),
    sql.begin eng s = inr tx → sql.rollback eng (afterExecs eng sqls tx) = s.

(** The catalog of the examples: the database [app] with the table
    [user], whose only column is [age int NULL], without indexes. *)
Definition ageSchema : columnSchema :=
  mkColumnSchema "user" "age" 1 None "YES" "int" None None None None "int(11)"
    "" "" "" 0 "".

(** The model of the examples: the struct [user] with the field [email],
    unique. *)
Definition userStructs : gmap string structAST :=
  {[ "user" := mkStructAST [mkAstField ["email"] (Ident "string") (Some "unique") None]
                 "" ]}.

Definition refused (query : string) : bool :=
  String.prefix "ALTER TABLE `user` DROP" query.

(** A server without transactions over the list of the statements
    applied so far: a statement is applied when it is executed, and there
    is nothing to roll back.  It refuses to drop a column of [user]. *)
Definition autocommitEngine : sql.engine (list string) :=
  {| sql.currentDatabase := λ _, inr "app";
     sql.statistics := λ _ _, inr [];
     sql.columns := λ _ _, inr [ageSchema];
     sql.begin := inr;
     sql.exec := λ query applied,
       if refused query then (Some "cannot drop", applied)
       else (None, applied ++ [query]);
     sql.rollback := λ applied, applied;
     sql.commit := λ applied, (None, applied) |}.

(** A server with transactions: the statements applied, and those of the
    open transaction if there is one. *)
Definition transactionalEngine : sql.engine (list string * option (list string)) :=
  {| sql.currentDatabase := λ _, inr "app";
     sql.statistics := λ _ _, inr [];
     sql.columns := λ _ _, inr [ageSchema];
     sql.begin := λ s,
       match s.2 with
       | Some _ => inl "transaction in progress"
       | None => inr (s.1, Some s.1)
       end;
     sql.exec := λ query s,
       if refused query then (Some "cannot drop", s)
       else match s.2 with
            | Some working => (None, (s.1, Some (working ++ [query])))
            | None => (None, (s.1 ++ [query], None))
            end;
     sql.rollback := λ s, (s.1, None);
     sql.commit := λ s,
       match s.2 with
       | Some working => (None, (working, None))
       | None => (Some "no transaction", s)
       end |}.

(** ** Notions used to state the properties *)

(** The desired fields that give a change (Added or Modified), and the
    old fields that are dropped, each in the order of its list. *)
Definition changedFields (oldFields newFields : list field) : list field :=
  filter (λ f, IsDifferent (columnTable oldFields !! Column f) (Some f) = true) newFields.

Definition droppedFields (oldFields newFields : list field) : list field :=
  filter (λ f, columnTable newFields !! Column f = None) oldFields.

(** Every index of the map has at least one column. *)
Definition hasColumns (m : gmap string index) : Prop :=
  map_Forall (λ _ idx, Columns idx ≠ []) m.

(** The first column of the index is in the set of dropped columns. *)
Definition firstColumnDropped (dropped : gset string) (entry : string * index) : Prop :=
  ∃ c, head (Columns entry.2) = Some c ∧ c ∈ dropped.

#[global] Instance firstColumnDropped_dec dropped entry :
  Decision (firstColumnDropped dropped entry).
Proof.
  unfold firstColumnDropped. destruct (head (Columns entry.2)) as [c|].
  - destruct (decide (c ∈ dropped)) as [Hin|Hnin].
    + left. by exists c.
    + right. intros (c' & [= <-] & Hc'). done.
  - right. by intros (c' & [=] & _).
Defined.

(** ** Notions used to state further properties *)

(** What one field contributes to an index map: each index name of
    [names] that [others] lacks, with the unique flag and the column. *)
Definition contributions (names others : list string) (u : bool) (column : string)
    : list (string * bool * string) :=
  map (λ name, (name, u, column)) (filter (λ name, name ∉ others) names).

(** The contributions of all desired fields, in field order, to the
    indexes to create and to the indexes to drop. *)
Definition addContributions (oldFields newFields : list field)
    : list (string * bool * string) :=
  flat_map (λ f,
    let oldField := default zeroField (columnTable oldFields !! Column f) in
    contributions (Indexes f) (Indexes oldField) false (Column f)
    ++ contributions (UniqueIndexes f) (UniqueIndexes oldField) true (Column f))
    newFields.

Definition dropContributions (oldFields newFields : list field)
    : list (string * bool * string) :=
  flat_map (λ f,
    let oldField := default zeroField (columnTable oldFields !! Column f) in
    contributions (Indexes oldField) (Indexes f) false (Column oldField)
    ++ contributions (UniqueIndexes oldField) (UniqueIndexes f) true (Column oldField))
    newFields.

(** The index that a list of contributions gives to [name]: the columns
    in the order of the list, and the flag of the first contribution. *)
Definition indexOf (name : string) (cs : list (string * bool * string)) : option index :=
  match filter (λ c, c.1.1 = name) cs with
  | [] => None
  | ((_, u, _) :: _) as mine => Some (mkIndex (map snd mine) u)
  end.

Definition applyContribution (m : gmap string index) (c : string * bool * string)
    : gmap string index :=
  appendIndexColumn m c.1.1 c.1.2 c.2.

Definition notDropTable (s : string) : Prop := String.prefix "DROP TABLE " s = false.

(** The statements of the pass of a table that is not live: its CREATE
    TABLE, then the CREATE INDEX of each index of its fields. *)
Definition createStatements (o : MapRange) (d : Dialect) (name : string) (tbl : table)
    : list string :=
  createTableSQL d (dialect.Quote d name) tbl
  :: map (createIndexSQL d (dialect.Quote d name))
       (range o (makeIndexMap [] (Fields tbl)).1).

(** A live table [user] whose column [name] loses its index. *)
Definition nameIndexed : field :=
  mkField "Name" "string" "name" "" [""] false false false false "" 255.

Definition unindex_desired : gmap string table :=
  {[ "user" := mkTable [nameField] "" ]}.

Definition unindex_live : gmap string (list field) :=
  {[ "user" := [nameIndexed] ]}.

(** The live catalog also holds a table [legacy] that the desired model
    does not name. *)
Definition legacy_live : gmap string (list field) :=
  {[ "legacy" := [xField]; "user" := [nameIndexed] ]}.

(** The data types that [GoFieldTypes] knows. *)
Definition supportedDataTypes : list string :=
  ["tinyint"; "smallint"; "mediumint"; "int"; "bigint"; "varchar"; "text";
   "mediumtext"; "longtext"; "datetime"; "double"].

(** [c] occurs in [s]. *)
Fixpoint hasByte (c : ascii) (s : string) : bool :=
  match s with
  | EmptyString => false
  | String a rest => Ascii.eqb a c || hasByte c rest
  end.

(** What the options that [fieldAST] writes for [schema] mean for a field
    [f]: the default, the key flags, the index and the size of the
    column. *)
Definition projectedOptions (lib : golib) (schema : columnSchema) (f : field) : field :=
  mkField (Name f) (Typ f) (Column f) (Comment f)
    (RawIndexes f
     ++ (if hasIndex lib schema
         then [if String.eqb (IndexName schema) (ColumnName schema)
               then "" else IndexName schema]
         else []))
    (Unique f || hasUniqueKey lib schema)
    (PrimaryKey f || hasPrimaryKey lib schema)
    (AutoIncrement f || hasAutoIncrement schema)
    (Ignore f)
    (default (Default f) (ColumnDefault schema))
    (match CharacterMaximumLength schema with
     | Some n =>
         if hasSize schema && negb (N.eqb n defaultVarcharSize) then n else Size f
     | None => Size f
     end).

(** A library that changes nothing, for examples that do not depend on
    the library. *)
Definition plainLib : golib :=
  {| ToUpper := λ s, s;
     TrimSpace := λ s, s;
     ToSnakeCase := λ s, s;
     ToUpperCamelCase := λ s, s;
     IsExported := λ _, true;
     Unquote := inr;
     TagGet := λ tag _, tag;
     CommentText := λ texts, Join texts "";
     NumErrorText := λ s _, s |}.

(** A nullable [varchar(32)] column [name] of table [user], with a default
    and a non-unique index [idx]. *)
Definition nameColumn : columnSchema :=
  mkColumnSchema "user" "name" 1 (Some "x:y") "YES" "varchar" (Some 32%N)
    None None None "varchar(32)" "" "" "" 1 "idx".

(** The options that [parseStructTag] accepts: a known key, with a
    parameter for [column], and with a decimal number of 64 bits for
    [size]. *)
Definition acceptedOption (opt : string) : Prop :=
  match SplitN2 opt ":" with
  | key :: params =>
      key ∈ [tagDefault; tagPrimaryKey; tagAutoIncrement; tagIndex; tagUnique;
             tagIgnore]
      ∨ (key = tagColumn ∧ params ≠ [])
      ∨ (key = tagSize
         ∧ ∃ param rest n, params = param :: rest ∧ ParseUint param = inr n)
  | [] => False
  end.




(** A Go type of package [time]. *)
Definition usesTime (goType : string) : bool := Contains goType "time.".

(** The error of [GoFieldTypes] for a column. *)
Definition unexpectedDataType (schema : columnSchema) : string :=
  "BUG: unexpected data type: " +:+ DataType schema.

(** The calls that [getTableMap] makes on a server in state [s]: each
    query is made when the one before it has succeeded. *)
Definition catalogQueries {S : Type} (eng : sql.engine S) (s : S) : list sql.call :=
  sql.QueryRow "SELECT DATABASE()"
  :: match sql.currentDatabase eng s with
     | inl _ => []
     | inr dbname =>
         sql.Query statisticsQuery dbname
         :: match sql.statistics eng s dbname with
            | inl _ => []
            | inr _ => [sql.Query columnsQuery dbname]
            end
     end.







(** The tag that [fieldAST] writes around the options [tags]. *)
Definition tagLiteral (tags : list string) : string :=
  "`migu:" +:+ dq +:+ Join tags "," +:+ dq +:+ "`".

(** The field that stands for the catalog column [schema] of Go type [t]
    when the options written into its tag are read back as they were
    written. *)
Definition liveField (lib : golib) (schema : columnSchema) (t : string) : field :=
  let name := ToUpperCamelCase lib (ColumnName schema) in
  let f :=
    projectedOptions lib schema
      (mkField name t "" "" [] false false false false "" defaultVarcharSize) in
  mkField name t (ToSnakeCase lib name)
    (if String.eqb (ColumnComment schema) "" then ""
     else TrimSpace lib (CommentText lib [" // " +:+ ColumnComment schema]))
    (RawIndexes f) (Unique f) (PrimaryKey f) (AutoIncrement f) false (Default f)
    (Size f).

(** A library that reads a tag with the one key [migu] back: it takes
    the back quotes off the literal and the key and the double quotes off
    the pair. *)
Definition quotingLib : golib :=
  {| ToUpper := λ s, s;
     TrimSpace := λ s, s;
     ToSnakeCase := λ s, s;
     ToUpperCamelCase := λ s, s;
     IsExported := λ _, true;
     Unquote := λ s, inr (String.substring 1 (String.length s - 2) s);
     TagGet := λ tag key,
       if String.prefix (key +:+ ":" +:+ dq) tag
       then String.substring (String.length key + 2)
              (String.length tag - String.length key - 3) tag
       else "";
     CommentText := λ texts, Join texts "";
     NumErrorText := λ s _, s |}.

(** * Properties *)

(** ** Strings and slices *)

Lemma inStrings_elem_of (a : list string) (s : string) :
  inStrings a s = true ↔ s ∈ a.
Proof.
  unfold inStrings. rewrite existsb_exists. split.
  - intros (x & Hx & Heq). apply String.eqb_eq in Heq as ->.
    by apply list_elem_of_In.
  - intros Hs. exists s. split; [by apply list_elem_of_In | apply String.eqb_refl].
Qed.

(** ** The type equivalence registry *)

Lemma insert_all_lookup {V : Type} (keys : list string) (v : V)
    (m : gmap string V) (k : string) :
  fold_left (λ m t, <[t := v]> m) keys m !! k
  = if decide (k ∈ keys) then Some v else m !! k.
Proof.
  revert m. induction keys as [|t keys IH]; intros m; simpl.
  - done.
  - rewrite IH. destruct (decide (k ∈ keys)) as [Hin|Hnin].
    + rewrite decide_True; [done | by right].
    + destruct (decide (k = t)) as [->|Hne].
      * rewrite lookup_insert_eq, decide_True; [done | by left].
      * rewrite lookup_insert_ne by done.
        rewrite decide_False; [done |]. by intros [?|?]%elem_of_cons.
Qed.

Lemma registerClass_lookup (m : gmap string (list string)) (types : list string)
    (t : string) :
  registerClass m types !! t = if decide (t ∈ types) then Some types else m !! t.
Proof. apply insert_all_lookup. Qed.

(** A key of the built map is bound to the last class that lists it. *)
Lemma buildTypeMap_app (classes : list (list string)) (types : list string) (t : string) :
  buildTypeMap (classes ++ [types]) !! t
  = if decide (t ∈ types) then Some types else buildTypeMap classes !! t.
Proof.
  unfold buildTypeMap. rewrite fold_left_app. simpl. apply registerClass_lookup.
Qed.

Lemma buildTypeMap_Some (classes : list (list string)) (t : string) (c : list string) :
  buildTypeMap classes !! t = Some c → c ∈ classes ∧ t ∈ c.
Proof.
  induction classes as [|types classes IH] using rev_ind.
  - unfold buildTypeMap. simpl. by rewrite lookup_empty.
  - rewrite buildTypeMap_app. case_decide as Ht.
    + intros [= <-]. split; [|done]. apply elem_of_app. right. by left.
    + intros [Hc Htc]%IH. split; [|done]. apply elem_of_app. by left.
Qed.

Lemma buildTypeMap_is_Some (classes : list (list string)) (t : string) (c : list string) :
  c ∈ classes → t ∈ c → is_Some (buildTypeMap classes !! t).
Proof.
  induction classes as [|types classes IH] using rev_ind.
  - by intros ?%elem_of_nil.
  - intros Hc Ht. rewrite buildTypeMap_app. case_decide; [by eexists|].
    apply IH; [|done]. apply elem_of_app in Hc as [Hc|Hc]; [done|].
    apply list_elem_of_singleton in Hc as ->. done.
Qed.

(** The registered classes form a partition: no token is in two of them. *)
Lemma sameTypeClasses_disjoint :
  Forall (λ c, Forall (λ c', c = c' ∨ Forall (λ t, t ∉ c') c) sameTypeClasses)
    sameTypeClasses.
Proof. apply (bool_decide_unpack _). by vm_compute. Qed.

Lemma sameTypeClasses_unique (t : string) (c c' : list string) :
  c ∈ sameTypeClasses → c' ∈ sameTypeClasses → t ∈ c → t ∈ c' → c = c'.
Proof.
  intros Hc Hc' Ht Ht'.
  pose proof sameTypeClasses_disjoint as Hd.
  rewrite Forall_forall in Hd. specialize (Hd c Hc).
  rewrite Forall_forall in Hd. destruct (Hd c' Hc') as [->|Hno]; [done|].
  rewrite Forall_forall in Hno. by destruct (Hno t Ht).
Qed.

Lemma sameTypeMap_lookup (t : string) (c : list string) :
  sameTypeMap !! t = Some c ↔ c ∈ sameTypeClasses ∧ t ∈ c.
Proof.
  split; [apply buildTypeMap_Some|].
  intros [Hc Ht]. destruct (buildTypeMap_is_Some _ _ _ Hc Ht) as [c' Hc'].
  unfold sameTypeMap. rewrite Hc'. f_equal.
  apply buildTypeMap_Some in Hc' as [Hin Ht'].
  by apply (sameTypeClasses_unique t).
Qed.

Lemma isSameType_spec (a b : string) :
  isSameType a b = true ↔ a = b ∨ ∃ c, c ∈ sameTypeClasses ∧ a ∈ c ∧ b ∈ c.
Proof.
  unfold isSameType. rewrite orb_true_iff, String.eqb_eq, inStrings_elem_of.
  split; (intros [Heq|Hcls]; [by left | right]).
  - destruct (sameTypeMap !! a) as [c|] eqn:Hl; simpl in Hcls.
    + apply sameTypeMap_lookup in Hl as [Hc Ha]. by exists c.
    + by apply elem_of_nil in Hcls.
  - destruct Hcls as (c & Hc & Ha & Hb).
    assert (sameTypeMap !! a = Some c) as -> by by apply sameTypeMap_lookup.
    done.
Qed.

(** C7: [isSameType] is exactly "equal, or members of one registered
    class"; a token that no class lists is equivalent to itself only; and
    the order of the two arguments does not matter. *)
Theorem isSameType_registered_classes (a b : string) :
  (isSameType a b = true ↔ a = b ∨ ∃ c, c ∈ sameTypeClasses ∧ a ∈ c ∧ b ∈ c)
  ∧ ((∀ c, c ∈ sameTypeClasses → a ∉ c) →
       (isSameType a b = true ↔ a = b) ∧ (isSameType b a = true ↔ a = b))
  ∧ isSameType a b = isSameType b a.
Proof.
  split; [apply isSameType_spec|]. split.
  - intros Hfree. rewrite !isSameType_spec. split.
    + split; [|by left]. intros [?|(c & Hc & Ha & _)]; [done|].
      by destruct (Hfree c Hc).
    + split; [|by left]. intros [?|(c & Hc & _ & Ha)]; [done|].
      by destruct (Hfree c Hc).
  - apply eq_true_iff_eq. rewrite !isSameType_spec.
    split; (intros [->|(c & Hc & H1 & H2)]; [by left | right; by exists c]).
Qed.

Lemma isSameType_refl (a : string) : isSameType a a = true.
Proof. apply isSameType_spec. by left. Qed.

(** ** Field comparison *)

(** C6: for two non-nil fields, [IsDifferent] holds exactly when the
    types are not equivalent or one of default, size, column, comment,
    auto-increment flag, primary-key flag differs.  The unique flag and the
    raw indexes play no part: changing only them leaves the fields "not
    different", and the field-level differ plans no change for them. *)
Theorem IsDifferent_compares_column_attributes (fold fnew : field) :
  (IsDifferent (Some fold) (Some fnew) = true ↔
     isSameType (Typ fold) (Typ fnew) = false
     ∨ Default fold ≠ Default fnew
     ∨ Size fold ≠ Size fnew
     ∨ Column fold ≠ Column fnew
     ∨ Comment fold ≠ Comment fnew
     ∨ AutoIncrement fold ≠ AutoIncrement fnew
     ∨ PrimaryKey fold ≠ PrimaryKey fnew)
  ∧ (∀ rawIndexes unique,
       IsDifferent (Some fold) (Some (withIndexes fold rawIndexes unique)) = false
       ∧ makeAlterTableFields [fold] [withIndexes fold rawIndexes unique] = []).
Proof.
  split.
  - unfold IsDifferent.
    rewrite !orb_true_iff, !negb_true_iff, !String.eqb_neq, N.eqb_neq,
      !eqb_false_iff.
    tauto.
  - intros rawIndexes unique.
    assert (IsDifferent (Some fold) (Some (withIndexes fold rawIndexes unique)) = false)
      as Hsame.
    { unfold IsDifferent, withIndexes; simpl.
      by rewrite isSameType_refl, !String.eqb_refl, N.eqb_refl, !eqb_reflx. }
    split; [done|].
    unfold makeAlterTableFields, columnTable; simpl.
    rewrite !lookup_insert_eq. by rewrite Hsame.
Qed.

(** ** The field-level differ *)

(** The two loops of [makeAlterTableFields] are filters of their input
    lists. *)
Lemma changed_loop (oldTable : gmap string field) (newFields : list field)
    (fields : list modifiedField) :
  fold_left (λ fields f,
      let oldF := oldTable !! Column f in
      if IsDifferent oldF (Some f)
      then fields ++ [mkModified oldF (Some f)]
      else fields) newFields fields
  = fields ++ map (λ f, mkModified (oldTable !! Column f) (Some f))
      (filter (λ f, IsDifferent (oldTable !! Column f) (Some f) = true) newFields).
Proof.
  revert fields. induction newFields as [|f newFields IH]; intros fields; simpl.
  - by rewrite app_nil_r.
  - rewrite IH, filter_cons.
    destruct (IsDifferent (oldTable !! Column f) (Some f)) eqn:Hd.
    + rewrite decide_True by done. simpl. by rewrite <- app_assoc.
    + by rewrite decide_False.
Qed.

Lemma dropped_loop (newTable : gmap string field) (oldFields : list field)
    (fields : list modifiedField) :
  fold_left (λ fields f,
      match newTable !! Column f with
      | None => fields ++ [mkModified (Some f) None]
      | Some _ => fields
      end) oldFields fields
  = fields ++ map (λ f, mkModified (Some f) None)
      (filter (λ f, newTable !! Column f = None) oldFields).
Proof.
  revert fields. induction oldFields as [|f oldFields IH]; intros fields; simpl.
  - by rewrite app_nil_r.
  - rewrite IH, filter_cons.
    destruct (newTable !! Column f) eqn:Hl.
    + by rewrite decide_False.
    + rewrite decide_True by done. simpl. by rewrite <- app_assoc.
Qed.


Lemma makeAlterTableFields_eq (oldFields newFields : list field) :
  makeAlterTableFields oldFields newFields
  = map (λ f, mkModified (columnTable oldFields !! Column f) (Some f))
      (changedFields oldFields newFields)
    ++ map (λ f, mkModified (Some f) None) (droppedFields oldFields newFields).
Proof.
  unfold makeAlterTableFields. by rewrite dropped_loop, changed_loop.
Qed.

Lemma alterStatements_eq (d : Dialect) (tableName : string)
    (fields : list modifiedField) (migrations : list string) :
  alterStatements d tableName fields migrations
  = migrations ++ concat (map (alterSQL d tableName) fields).
Proof.
  unfold alterStatements. revert migrations.
  induction fields as [|f fields IH]; intros migrations; simpl.
  - by rewrite app_nil_r.
  - by rewrite IH, <- app_assoc.
Qed.

(** C5: the plan of one table is the Added and Modified changes, in the
    order of the desired fields, followed by the Dropped changes, in the
    order of the old fields; the ALTER statements are appended in the
    order of the plan. *)
Theorem alter_plan_changes_then_drops (d : Dialect) (tableName : string)
    (oldFields newFields : list field) (migrations : list string) :
  ∃ changed dropped : list modifiedField,
    makeAlterTableFields oldFields newFields = changed ++ dropped
    ∧ Forall (λ f, IsAdded f = true ∨ IsModified f = true) changed
    ∧ Forall (λ f, IsDropped f = true) dropped
    ∧ map new changed = map Some (changedFields oldFields newFields)
    ∧ changedFields oldFields newFields `sublist_of` newFields
    ∧ map old dropped = map Some (droppedFields oldFields newFields)
    ∧ droppedFields oldFields newFields `sublist_of` oldFields
    ∧ alterStatements d tableName (makeAlterTableFields oldFields newFields) migrations
      = migrations ++ concat (map (alterSQL d tableName) changed)
          ++ concat (map (alterSQL d tableName) dropped).
Proof.
  eexists _, _. split; [apply makeAlterTableFields_eq|].
  repeat split.
  - apply Forall_forall. intros f (g & -> & _)%list_elem_of_fmap.
    unfold IsAdded, IsModified; simpl.
    destruct (columnTable oldFields !! Column g); auto.
  - apply Forall_forall. by intros f (g & -> & _)%list_elem_of_fmap.
  - by rewrite map_map.
  - apply sublist_filter.
  - by rewrite map_map.
  - apply sublist_filter.
  - by rewrite alterStatements_eq, makeAlterTableFields_eq, map_app, concat_app.
Qed.

(** ** The index differ: every computed index has a first column *)


Lemma appendIndexColumn_hasColumns (m : gmap string index) (name : string)
    (u : bool) (column : string) :
  hasColumns m → hasColumns (appendIndexColumn m name u column).
Proof.
  intros Hm. unfold appendIndexColumn. apply map_Forall_insert_2; [|done].
  simpl. by destruct (Columns _).
Qed.

Lemma collectIndexes_hasColumns (names others : list string) (u : bool)
    (column : string) (m : gmap string index) :
  hasColumns m → hasColumns (collectIndexes names others u column m).
Proof.
  unfold collectIndexes. revert m.
  induction names as [|name names IH]; intros m Hm; simpl; [done|].
  apply IH. destruct (negb _); [by apply appendIndexColumn_hasColumns | done].
Qed.

Lemma indexStep_hasColumns (m : gmap string field)
    (maps : gmap string index * gmap string index) (f : field) :
  hasColumns maps.1 ∧ hasColumns maps.2 →
  hasColumns (indexStep m maps f).1 ∧ hasColumns (indexStep m maps f).2.
Proof.
  destruct maps as [addIndexMap dropIndexMap]. intros [Ha Hd]. simpl.
  split; by do 2 apply collectIndexes_hasColumns.
Qed.

Lemma makeIndexMap_hasColumns (oldFields newFields : list field) :
  hasColumns (makeIndexMap oldFields newFields).1
  ∧ hasColumns (makeIndexMap oldFields newFields).2.
Proof.
  unfold makeIndexMap.
  assert (hasColumns (∅ : gmap string index, ∅ : gmap string index).1
          ∧ hasColumns (∅ : gmap string index, ∅ : gmap string index).2) as Hinit
    by (split; apply map_Forall_empty).
  revert Hinit. generalize (∅ : gmap string index, ∅ : gmap string index).
  induction newFields as [|f newFields IH]; intros maps Hmaps; simpl; [done|].
  apply IH. by apply indexStep_hasColumns.
Qed.

(** ** Iteration order *)

Lemma elem_of_range {A : Type} (o : MapRange) (m : gmap string A) (k : string) (v : A) :
  (k, v) ∈ range o m ↔ m !! k = Some v.
Proof. by rewrite (range_perm o A m), elem_of_map_to_list. Qed.

Lemma range_empty {A : Type} (o : MapRange) : range o (∅ : gmap string A) = [].
Proof.
  apply Permutation_nil_r. by rewrite (range_perm o A ∅), map_to_list_empty.
Qed.

Lemma range_singleton {A : Type} (o : MapRange) (k : string) (v : A) :
  range o ({[k := v]} : gmap string A) = [(k, v)].
Proof.
  apply Permutation_singleton_r.
  by rewrite (range_perm o A _), map_to_list_singleton.
Qed.

(** ** One table pass *)


Section Pass.

Context (o : MapRange) (d : Dialect) {C : Type} (project : C → outcome field).

Lemma dropIndexStatements_eq (tableName : string) (dropped : gset string)
    (entries : list (string * index)) (migrations : list string) :
  Forall (λ entry, Columns entry.2 ≠ []) entries →
  dropIndexStatements d tableName dropped entries migrations
  = Ok (migrations
        ++ map (dropIndexSQL d tableName)
             (filter (λ entry, ¬ firstColumnDropped dropped entry) entries)).
Proof.
  intros Hall. revert migrations.
  induction Hall as [|entry entries Hne _ IH]; intros migrations; simpl.
  - by rewrite app_nil_r.
  - rewrite filter_cons. destruct (Columns entry.2) as [|first rest] eqn:Hcols; [done|].
    destruct (decide (first ∈ dropped)) as [Hin|Hnin].
    + rewrite decide_False; [apply IH|].
      intros Hnot. apply Hnot. exists first. by rewrite Hcols.
    + rewrite decide_True; [rewrite IH; simpl; by rewrite <- app_assoc|].
      unfold firstColumnDropped. rewrite Hcols. by intros (c & [= <-] & Hc).
Qed.

Lemma createIndexStatements_eq (tableName : string)
    (entries : list (string * index)) (migrations : list string) :
  createIndexStatements d tableName entries migrations
  = migrations ++ map (createIndexSQL d tableName) entries.
Proof.
  unfold createIndexStatements. revert migrations.
  induction entries as [|entry entries IH]; intros migrations; simpl.
  - by rewrite app_nil_r.
  - by rewrite IH, <- app_assoc.
Qed.

Lemma range_hasColumns (m : gmap string index) :
  hasColumns m → Forall (λ entry, Columns entry.2 ≠ []) (range o m).
Proof.
  intros Hm. apply Forall_forall. intros [k idx] Hin%elem_of_range. by apply (Hm k).
Qed.

(** A column joins the set exactly when the plan drops it. *)
Lemma elem_of_recordDropped (fields : list modifiedField) (dropped : gset string)
    (c : string) :
  c ∈ recordDropped fields dropped
  ↔ c ∈ dropped ∨ ∃ fold, mkModified (Some fold) None ∈ fields ∧ Column fold = c.
Proof.
  unfold recordDropped. revert dropped.
  induction fields as [|f fields IH]; intros dropped; simpl.
  - split; [by left|]. intros [?|(fold & ?%elem_of_nil & _)]; done.
  - rewrite IH. destruct f as [[fold|] [fnew|]]; simpl.
    + split; (intros [?|(g & Hg & Hc)]; [by left | right; exists g; split; [|done]]).
      * by right.
      * by apply elem_of_cons in Hg as [[=]|?].
    + rewrite elem_of_union, elem_of_singleton. split.
      * intros [[->|?]|(g & Hg & Hc)]; [right | by left | right].
        -- exists fold. split; [by left | done].
        -- exists g. split; [by right | done].
      * intros [?|(g & Hg & Hc)]; [left; by right|].
        apply elem_of_cons in Hg as [[= ->]|Hg]; [left; by left|].
        right. by exists g.
    + split; (intros [?|(g & Hg & Hc)]; [by left | right; exists g; split; [|done]]).
      * by right.
      * by apply elem_of_cons in Hg as [[=]|?].
    + split; (intros [?|(g & Hg & Hc)]; [by left | right; exists g; split; [|done]]).
      * by right.
      * by apply elem_of_cons in Hg as [[=]|?].
Qed.

Lemma recordDropped_subseteq (fields : list modifiedField) (dropped : gset string) :
  dropped ⊆ recordDropped fields dropped.
Proof. intros c Hc. apply elem_of_recordDropped. by left. Qed.

(** The state after the pass of a table, in terms of what the first half
    of the pass produced. *)
Lemma tablePass_eq (st : diffState C) (name : string) (tbl : table)
    (migrations : list string) (olds : list field) (dropped : gset string) :
  structMap st !! name = Some tbl →
  fieldPass d project st name = Ok (migrations, olds, dropped) →
  tablePass o d project st name
  = Ok (mkState
          (migrations
           ++ map (dropIndexSQL d (dialect.Quote d name))
                (filter (λ entry, ¬ firstColumnDropped dropped entry)
                   (range o (makeIndexMap olds (Fields tbl)).2))
           ++ map (createIndexSQL d (dialect.Quote d name))
                (range o (makeIndexMap olds (Fields tbl)).1))
          olds dropped (delete name (structMap st)) (delete name (tableMap st))).
Proof.
  intros Htbl Hfield. unfold tablePass. rewrite Hfield, Htbl. simpl.
  pose proof (makeIndexMap_hasColumns olds (Fields tbl)) as [_ Hdrop].
  destruct (makeIndexMap olds (Fields tbl)) as [addIndexMap dropIndexMap].
  simpl in *.
  rewrite dropIndexStatements_eq by by apply range_hasColumns.
  simpl. by rewrite createIndexStatements_eq, <- app_assoc.
Qed.

Lemma fieldPass_live (st : diffState C) (name : string) (tbl : table)
    (columns : list C) (olds : list field) :
  structMap st !! name = Some tbl →
  tableMap st !! name = Some columns →
  appendProjected project (oldFields st) columns = Ok olds →
  fieldPass d project st name
  = Ok (alterStatements d (dialect.Quote d name)
          (makeAlterTableFields olds (Fields tbl)) (migrations st),
        olds,
        recordDropped (makeAlterTableFields olds (Fields tbl)) (droppedColumn st)).
Proof.
  intros Htbl Hcols Holds. unfold fieldPass. by rewrite Hcols, Holds, Htbl.
Qed.

Lemma fieldPass_create (st : diffState C) (name : string) (tbl : table) :
  structMap st !! name = Some tbl →
  tableMap st !! name = None →
  fieldPass d project st name
  = Ok (migrations st ++ [createTableSQL d (dialect.Quote d name) tbl],
        oldFields st, droppedColumn st).
Proof.
  intros Htbl Hcols. unfold fieldPass. by rewrite Hcols, Htbl.
Qed.

(** The pass of a table that exists live, and of one that does not. *)
Lemma tablePass_live (st : diffState C) (name : string) (tbl : table)
    (columns : list C) (olds : list field) :
  structMap st !! name = Some tbl →
  tableMap st !! name = Some columns →
  appendProjected project (oldFields st) columns = Ok olds →
  tablePass o d project st name
  = Ok (mkState
          (alterStatements d (dialect.Quote d name)
             (makeAlterTableFields olds (Fields tbl)) (migrations st)
           ++ map (dropIndexSQL d (dialect.Quote d name))
                (filter (λ entry, ¬ firstColumnDropped
                           (recordDropped (makeAlterTableFields olds (Fields tbl))
                              (droppedColumn st)) entry)
                   (range o (makeIndexMap olds (Fields tbl)).2))
           ++ map (createIndexSQL d (dialect.Quote d name))
                (range o (makeIndexMap olds (Fields tbl)).1))
          olds
          (recordDropped (makeAlterTableFields olds (Fields tbl)) (droppedColumn st))
          (delete name (structMap st)) (delete name (tableMap st))).
Proof.
  intros Htbl Hcols Holds.
  apply tablePass_eq; [done|].
  by apply (fieldPass_live st name tbl columns).
Qed.

Lemma tablePass_create (st : diffState C) (name : string) (tbl : table) :
  structMap st !! name = Some tbl →
  tableMap st !! name = None →
  tablePass o d project st name
  = Ok (mkState
          ((migrations st ++ [createTableSQL d (dialect.Quote d name) tbl])
           ++ map (dropIndexSQL d (dialect.Quote d name))
                (filter (λ entry, ¬ firstColumnDropped (droppedColumn st) entry)
                   (range o (makeIndexMap (oldFields st) (Fields tbl)).2))
           ++ map (createIndexSQL d (dialect.Quote d name))
                (range o (makeIndexMap (oldFields st) (Fields tbl)).1))
          (oldFields st) (droppedColumn st)
          (delete name (structMap st)) (delete name (tableMap st))).
Proof.
  intros Htbl Hcols.
  apply tablePass_eq; [done|]. by apply fieldPass_create.
Qed.

End Pass.

Section PassProperties.

Context (o : MapRange) (d : Dialect) {C : Type} (project : C → outcome field).

Lemma alterSQL_not_drop_index (tableName : string) (f : modifiedField) :
  Forall (λ s, String.prefix "DROP INDEX " s = false) (alterSQL d tableName f).
Proof.
  unfold alterSQL. destruct (old f), (new f); repeat constructor.
Qed.

Lemma alters_not_drop_index (tableName : string) (fields : list modifiedField) :
  Forall (λ s, String.prefix "DROP INDEX " s = false)
    (concat (map (alterSQL d tableName) fields)).
Proof.
  induction fields as [|f fields IH]; simpl; [constructor|].
  apply Forall_app. split; [apply alterSQL_not_drop_index | done].
Qed.

Lemma creates_not_drop_index (tableName : string) (entries : list (string * index)) :
  Forall (λ s, String.prefix "DROP INDEX " s = false)
    (map (createIndexSQL d tableName) entries).
Proof.
  apply Forall_forall. intros s (entry & -> & _)%list_elem_of_fmap.
  unfold createIndexSQL. by destruct (index_Unique entry.2).
Qed.

(** What [tablePass] leaves behind when it ends normally. *)
Lemma fieldPass_shape (st : diffState C) (name : string)
    (migrations' : list string) (olds : list field) (dropped : gset string) :
  fieldPass d project st name = Ok (migrations', olds, dropped) →
  ∃ alters,
    migrations' = migrations st ++ alters
    ∧ Forall (λ s, String.prefix "DROP INDEX " s = false) alters
    ∧ droppedColumn st ⊆ dropped.
Proof.
  unfold fieldPass. destruct (tableMap st !! name) as [columns|].
  - destruct (appendProjected project (oldFields st) columns) as [olds'| |];
      simpl; [|done..].
    destruct (structMap st !! name) as [tbl|]; simpl; [|done].
    intros [= <- <- <-]. eexists. split; [apply alterStatements_eq|].
    split; [apply alters_not_drop_index | apply recordDropped_subseteq].
  - destruct (structMap st !! name) as [tbl|]; simpl; [|done].
    intros [= <- <- <-]. eexists. split; [done|]. split; [|done].
    repeat constructor. unfold createTableSQL. by destruct (negb _).
Qed.

Lemma tablePass_shape (st st' : diffState C) (name : string) :
  tablePass o d project st name = Ok st' →
  ∃ (tbl : table) (alters : list string),
    structMap st !! name = Some tbl
    ∧ fieldPass d project st name
      = Ok (migrations st ++ alters, oldFields st', droppedColumn st')
    ∧ migrations st'
      = migrations st ++ alters
          ++ map (dropIndexSQL d (dialect.Quote d name))
               (filter (λ entry, ¬ firstColumnDropped (droppedColumn st') entry)
                  (range o (makeIndexMap (oldFields st') (Fields tbl)).2))
          ++ map (createIndexSQL d (dialect.Quote d name))
               (range o (makeIndexMap (oldFields st') (Fields tbl)).1)
    ∧ Forall (λ s, String.prefix "DROP INDEX " s = false) alters
    ∧ droppedColumn st ⊆ droppedColumn st'.
Proof.
  intros Hpass.
  destruct (fieldPass d project st name) as [[[migrations' olds] dropped]| |] eqn:Hfield;
    [|by unfold tablePass in Hpass; rewrite Hfield in Hpass..].
  destruct (structMap st !! name) as [tbl|] eqn:Htbl;
    [|by unfold tablePass in Hpass; rewrite Hfield, Htbl in Hpass].
  rewrite (tablePass_eq o d project st name tbl _ _ _ Htbl Hfield) in Hpass.
  injection Hpass as <-. simpl.
  destruct (fieldPass_shape _ _ _ _ _ Hfield) as (alters & -> & Hno & Hsub).
  exists tbl, alters. by rewrite <- !app_assoc.
Qed.

Lemma diffLoop_droppedColumn (names : list string) (st st' : diffState C) :
  diffLoop o d project names st = Ok st' →
  droppedColumn st ⊆ droppedColumn st'.
Proof.
  revert st. induction names as [|name names IH]; intros st; simpl.
  - by intros [= <-].
  - destruct (tablePass o d project st name) as [st1| |] eqn:Hpass; simpl; [|done..].
    intros Hrest%IH.
    destruct (tablePass_shape _ _ _ Hpass) as (_ & _ & _ & _ & _ & _ & Hsub).
    set_solver.
Qed.

(** [oldFields] is only ever appended to: after a pass it still starts
    with what it held before. *)
Lemma appendProjected_prefix (olds olds' : list field) (columns : list C) :
  appendProjected project olds columns = Ok olds' → olds `prefix_of` olds'.
Proof.
  revert olds. induction columns as [|c columns IH]; intros olds; simpl.
  - by intros [= <-].
  - destruct (project c) as [f| |]; simpl; [|done..].
    intros Hrest%IH. etrans; [|done]. by apply prefix_app_r.
Qed.

Lemma tablePass_oldFields (st st' : diffState C) (name : string) :
  tablePass o d project st name = Ok st' →
  oldFields st `prefix_of` oldFields st'.
Proof.
  intros (tbl & alters & _ & Hfield & _)%tablePass_shape.
  unfold fieldPass in Hfield. destruct (tableMap st !! name) as [columns|].
  - destruct (appendProjected project (oldFields st) columns) as [olds| |] eqn:Holds;
      simpl in Hfield; [|done..].
    destruct (structMap st !! name); simpl in Hfield; [|done].
    injection Hfield as _ <- _. by apply (appendProjected_prefix _ _ columns).
  - destruct (structMap st !! name); simpl in Hfield; [|done].
    by injection Hfield as _ <- _.
Qed.

(** C10: the set of dropped columns belongs to the whole loop, not to a
    table.  When the pass of a table [name1] drops the column of [fold],
    that column is still in the set in every later pass, whatever tables
    lie between, and the later pass of a table [name2] emits no DROP INDEX
    for a computed index whose first column has that name. *)
Theorem dropped_column_set_spans_tables (st1 st1' st2 st2' : diffState C)
    (name1 name2 : string) (between : list string)
    (tbl1 : table) (columns1 : list C) (olds1 : list field) (fold : field) :
  structMap st1 !! name1 = Some tbl1 →
  tableMap st1 !! name1 = Some columns1 →
  appendProjected project (oldFields st1) columns1 = Ok olds1 →
  mkModified (Some fold) None ∈ makeAlterTableFields olds1 (Fields tbl1) →
  tablePass o d project st1 name1 = Ok st1' →
  diffLoop o d project between st1' = Ok st2 →
  tablePass o d project st2 name2 = Ok st2' →
  Column fold ∈ droppedColumn st1'
  ∧ droppedColumn st1' ⊆ droppedColumn st2
  ∧ droppedColumn st2 ⊆ droppedColumn st2'
  ∧ ∃ (tbl2 : table) (alters created : list string)
      (emitted : list (string * index)),
      structMap st2 !! name2 = Some tbl2
      ∧ migrations st2'
        = migrations st2 ++ alters
            ++ map (dropIndexSQL d (dialect.Quote d name2)) emitted ++ created
      ∧ Forall (λ s, String.prefix "DROP INDEX " s = false) (alters ++ created)
      ∧ emitted
        = filter (λ entry, ¬ firstColumnDropped (droppedColumn st2') entry)
            (range o (makeIndexMap (oldFields st2') (Fields tbl2)).2)
      ∧ ∀ entry,
          entry ∈ range o (makeIndexMap (oldFields st2') (Fields tbl2)).2 →
          head (Columns entry.2) = Some (Column fold) →
          entry ∉ emitted.
Proof.
  intros Htbl1 Hcols1 Holds1 Hdrop Hpass1 Hloop Hpass2.
  assert (Column fold ∈ droppedColumn st1') as Hin1.
  { pose proof (fieldPass_live d project st1 name1 tbl1 columns1 olds1
                  Htbl1 Hcols1 Holds1) as Hfield.
    rewrite (tablePass_eq o d project st1 name1 tbl1 _ _ _ Htbl1 Hfield) in Hpass1.
    injection Hpass1 as <-. simpl.
    apply elem_of_recordDropped. right. by exists fold. }
  pose proof (diffLoop_droppedColumn _ _ _ Hloop) as Hsub12.
  destruct (tablePass_shape _ _ _ Hpass2)
    as (tbl2 & alters & Htbl2 & _ & Hmig & Hno & Hsub2).
  split; [done|]. split; [done|]. split; [done|].
  eexists tbl2, alters, _, _. split; [done|]. split; [exact Hmig|].
  split; [|split; [done|]].
  - apply Forall_app. split; [done | apply creates_not_drop_index].
  - intros entry _ Hhead [Hkeep _]%list_elem_of_filter.
    apply Hkeep. exists (Column fold). split; [done|]. set_solver.
Qed.

End PassProperties.

(** ** The order of the table passes *)

Lemma sortStrings_sorted (names : list string) :
  StronglySorted String.le (sortStrings names).
Proof. apply StronglySorted_merge_sort; apply _. Qed.

Lemma sortStrings_Permutation (names names' : list string) :
  names ≡ₚ names' → sortStrings names = sortStrings names'.
Proof.
  intros Hperm. apply (StronglySorted_unique String.le);
    [apply sortStrings_sorted..|].
  unfold sortStrings. by rewrite !merge_sort_Permutation.
Qed.

(** The tables are visited in ascending order of their names, each once,
    whatever order the runtime iterates the map in. *)
Lemma tableNames_sorted (o : MapRange) (desired : gmap string table) :
  StronglySorted String.le (tableNames o desired)
  ∧ tableNames o desired ≡ₚ (map_to_list desired).*1.
Proof.
  split; [apply sortStrings_sorted|].
  unfold tableNames, sortStrings.
  by rewrite merge_sort_Permutation, (range_perm o _ desired).
Qed.

Lemma tableNames_order_irrelevant (o : MapRange) (desired : gmap string table) :
  tableNames o desired = tableNames keyOrder desired.
Proof.
  apply sortStrings_Permutation. simpl.
  by rewrite (range_perm o _ desired).
Qed.


(** ** Scenarios *)

Lemma append_empty_r (s : string) : s +:+ "" = s.
Proof.
  induction s as [|a s IH]; [done|].
  change (String a (s +:+ "") = String a s). by rewrite IH.
Qed.

Ltac pass_steps :=
  cbn [diffLoop mbind outcome_bind Fields tableMap structMap migrations
       droppedColumn oldFields].

(** ** One table that already matches *)

Lemma columnTable_untouched (fields : list field) (m : gmap string field) (c : string) :
  c ∉ map Column fields →
  fold_left (λ t f, <[Column f := f]> t) fields m !! c = m !! c.
Proof.
  revert m. induction fields as [|g fields IH]; intros m Hc; simpl; [done|].
  rewrite IH by (intros Hin; apply Hc; by right).
  apply lookup_insert_ne. intros Heq. apply Hc. rewrite <- Heq. by left.
Qed.

Lemma columnTable_lookup_NoDup (fields : list field) (f : field) :
  NoDup (map Column fields) → f ∈ fields →
  columnTable fields !! Column f = Some f.
Proof.
  unfold columnTable. generalize (∅ : gmap string field).
  induction fields as [|g fields IH]; intros m Hnd Hin; simpl.
  - by apply elem_of_nil in Hin.
  - apply NoDup_cons in Hnd as [Hg Hnd].
    apply elem_of_cons in Hin as [->|Hin]; [|by apply IH].
    rewrite columnTable_untouched by done. apply lookup_insert_eq.
Qed.

Lemma IsDifferent_same (f : field) : IsDifferent (Some f) (Some f) = false.
Proof.
  unfold IsDifferent.
  by rewrite isSameType_refl, !String.eqb_refl, N.eqb_refl, !eqb_reflx.
Qed.

Lemma filter_none {A : Type} (P : A → Prop) `{∀ x, Decision (P x)} (l : list A) :
  (∀ x, x ∈ l → ¬ P x) → filter P l = [].
Proof.
  induction l as [|x l IH]; intros Hall; [done|].
  rewrite filter_cons, decide_False by (apply Hall; by left).
  apply IH. intros y Hy. apply Hall. by right.
Qed.

Lemma makeAlterTableFields_same (fields : list field) :
  NoDup (map Column fields) → makeAlterTableFields fields fields = [].
Proof.
  intros Hnd. rewrite makeAlterTableFields_eq.
  unfold changedFields, droppedFields.
  rewrite !filter_none; [done|..].
  - intros f Hf. by rewrite (columnTable_lookup_NoDup fields f).
  - intros f Hf. by rewrite (columnTable_lookup_NoDup fields f), IsDifferent_same.
Qed.

Lemma collectIndexes_none (names others : list string) (u : bool) (column : string)
    (m : gmap string index) :
  names ⊆ others → collectIndexes names others u column m = m.
Proof.
  unfold collectIndexes. revert m.
  induction names as [|name names IH]; intros m Hsub; simpl; [done|].
  assert (inStrings others name = true) as ->.
  { apply inStrings_elem_of, Hsub. by left. }
  simpl. apply IH. intros n Hn. apply Hsub. by right.
Qed.

Lemma makeIndexMap_same (fields : list field) :
  NoDup (map Column fields) → makeIndexMap fields fields = (∅, ∅).
Proof.
  intros Hnd. unfold makeIndexMap.
  assert (∀ l maps, l ⊆ fields →
            fold_left (indexStep (columnTable fields)) l maps = maps) as Hfix.
  { induction l as [|f l IH]; intros [addIndexMap dropIndexMap] Hsub; simpl; [done|].
    rewrite (columnTable_lookup_NoDup fields f) by (try done; apply Hsub; by left).
    simpl. rewrite !collectIndexes_none by done.
    apply IH. intros g Hg. apply Hsub. by right. }
  by apply Hfix.
Qed.

Lemma appendProjected_projected (olds fields : list field) :
  appendProjected projected olds fields = Ok (olds ++ fields).
Proof.
  revert olds. induction fields as [|f fields IH]; intros olds; simpl.
  - by rewrite app_nil_r.
  - rewrite IH. by rewrite <- app_assoc.
Qed.

(** A single table whose live columns project to exactly the desired
    fields, with distinct column names, needs no statement. *)
Lemma single_table_idempotent (o : MapRange) (d : Dialect)
    (name : string) (tbl : table) :
  NoDup (map Column (Fields tbl)) →
  Diff o d projected {[name := tbl]} {[name := Fields tbl]} = Ok [].
Proof.
  intros Hnd. unfold Diff, tableNames. rewrite range_singleton.
  change (sortStrings (map fst [(name, tbl)])) with [name].
  pass_steps.
  pose proof (appendProjected_projected [] (Fields tbl)) as Holds.
  rewrite (tablePass_live o d projected _ name tbl (Fields tbl) (Fields tbl));
    [|apply lookup_singleton_eq..|exact Holds].
  pass_steps.
  rewrite makeAlterTableFields_same, makeIndexMap_same by done. cbn [fst snd].
  rewrite range_empty, delete_singleton_eq, range_empty. done.
Qed.

(** *** Scenario 2: drop [age], add a unique [email] *)

Lemma scenario2_plan :
  makeAlterTableFields [ageColumn] [emailField]
  = [mkModified None (Some emailField); mkModified (Some ageColumn) None].
Proof. by vm_compute. Qed.

Lemma scenario2_indexes :
  makeIndexMap [ageColumn] [emailField]
  = ({["email" := mkIndex ["email"] true]}, ∅).
Proof. by vm_compute. Qed.

(** C4, as the code has it: for scenario 2 [Diff] returns three
    statements: the ALTER TABLE ... ADD of [email] first, then the
    ALTER TABLE ... DROP of [age], then the CREATE UNIQUE INDEX.  This
    holds for every dialect and every map iteration order; what follows
    the quoted column name in the ADD statement is left open. *)
Theorem scenario2_add_drop_create_index (o : MapRange) (d : Dialect) :
  ∃ definition : string,
    Diff o d projected scenario2_desired scenario2_live
    = Ok [ "ALTER TABLE " +:+ dialect.Quote d "user" +:+ " ADD "
             +:+ dialect.Quote d "email" +:+ definition;
           "ALTER TABLE " +:+ dialect.Quote d "user" +:+ " DROP "
             +:+ dialect.Quote d "age";
           "CREATE UNIQUE INDEX " +:+ dialect.Quote d "email" +:+ " ON "
             +:+ dialect.Quote d "user" +:+ " (" +:+ dialect.Quote d "email" +:+ ")" ].
Proof.
  exists "". rewrite append_empty_r.
  unfold Diff. rewrite tableNames_order_irrelevant.
  replace (tableNames keyOrder scenario2_desired) with ["user"] by (by vm_compute).
  pass_steps.
  rewrite (tablePass_live o d projected _ "user" (mkTable [emailField] "")
             [ageColumn] [ageColumn]) by done.
  pass_steps.
  rewrite scenario2_plan, scenario2_indexes. cbn [fst snd].
  rewrite range_singleton, range_empty.
  replace (delete "user" scenario2_live) with (∅ : gmap string (list field))
    by (by vm_compute).
  by rewrite range_empty.
Qed.

(** C4, as the claim has it, fails: with the sample dialect the list that
    starts with the DROP of [age] is not what [Diff] returns, whatever
    column definition follows [ADD `email`]. *)
Lemma scenario2_drop_is_not_first :
  ¬ ∃ definition : string,
      Diff keyOrder sampleDialect projected scenario2_desired scenario2_live
      = Ok [ "ALTER TABLE `user` DROP `age`";
             "ALTER TABLE `user` ADD `email`" +:+ definition;
             "CREATE UNIQUE INDEX `email` ON `user` (`email`)" ].
Proof.
  intros [definition Hdiff]. vm_compute in Hdiff. discriminate Hdiff.
Qed.

(** *** Two tables that already match *)

Lemma matching_plan_a : makeAlterTableFields [xField] [xField] = [].
Proof. by vm_compute. Qed.

Lemma matching_indexes_a : makeIndexMap [xField] [xField] = (∅, ∅).
Proof. by vm_compute. Qed.

Lemma matching_plan_b :
  makeAlterTableFields [xField; yField] [yField] = [mkModified (Some xField) None].
Proof. by vm_compute. Qed.

Lemma matching_indexes_b : makeIndexMap [xField; yField] [yField] = (∅, ∅).
Proof. by vm_compute. Qed.

Lemma matching_pass_a (o : MapRange) (d : Dialect) :
  tablePass o d projected (mkState [] [] ∅ matching_desired matching_live) "a"
  = Ok (mkState [] [xField] ∅
          (delete "a" matching_desired) (delete "a" matching_live)).
Proof.
  rewrite (tablePass_live o d projected _ "a" (mkTable [xField] "")
             [xField] [xField]) by done.
  pass_steps. rewrite matching_plan_a, matching_indexes_a. cbn [fst snd].
  by rewrite range_empty.
Qed.

(** C1 fails on the code: one matching table (with distinct column names)
    gives no statement, but two matching tables, [a] with column [x] and
    [b] with column [y], give a DROP, in table [b], of the column [x] of
    table [a].  This holds for every dialect and every map iteration
    order. *)
Theorem matching_tables_get_a_drop (o : MapRange) (d : Dialect) :
  (∀ name tbl,
     NoDup (map Column (Fields tbl)) →
     Diff o d projected {[name := tbl]} {[name := Fields tbl]} = Ok [])
  ∧ Diff o d projected matching_desired matching_live
    = Ok ["ALTER TABLE " +:+ dialect.Quote d "b" +:+ " DROP " +:+ dialect.Quote d "x"].
Proof.
  split; [apply single_table_idempotent|].
  unfold Diff. rewrite tableNames_order_irrelevant.
  replace (tableNames keyOrder matching_desired) with ["a"; "b"] by (by vm_compute).
  pass_steps. rewrite matching_pass_a. pass_steps.
  rewrite (tablePass_live o d projected _ "b" (mkTable [yField] "")
             [yField] [xField; yField]) by done.
  pass_steps. rewrite matching_plan_b, matching_indexes_b. cbn [fst snd].
  rewrite range_empty.
  replace (delete "b" (delete "a" matching_live))
    with (∅ : gmap string (list field)) by (by vm_compute).
  by rewrite range_empty.
Qed.

(** C2 fails on the code: [oldFields] is never emptied between passes.
    After the pass of table [a], the pass of table [b] hands the
    field-level differ the column [x] of table [a] together with the
    column [y] of [b], and the plan drops [x]. *)
Theorem old_fields_of_earlier_table_remain (o : MapRange) (d : Dialect) :
  ∃ st : diffState field,
    tablePass o d projected (mkState [] [] ∅ matching_desired matching_live) "a"
    = Ok st
    ∧ tableMap st !! "b" = Some [yField]
    ∧ appendProjected projected (oldFields st) [yField] = Ok [xField; yField]
    ∧ makeAlterTableFields [xField; yField] [yField]
      = [mkModified (Some xField) None].
Proof.
  eexists. split; [apply matching_pass_a|].
  split; [done|]. split; [done | apply matching_plan_b].
Qed.

(** *** A column is added *)

Lemma addEmail_plan :
  makeAlterTableFields [ageColumn] [ageColumn; emailPlain]
  = [mkModified None (Some emailPlain)].
Proof. by vm_compute. Qed.

Lemma addEmail_indexes : makeIndexMap [ageColumn] [ageColumn; emailPlain] = (∅, ∅).
Proof. by vm_compute. Qed.

(** C3 fails on the code: the statement for an Added field ends with the
    quoted column name; the column definition that [columnSQL] renders for
    the field (type, NOT NULL, ...) is not in it. *)
Theorem added_column_statement_names_the_column_only (o : MapRange) (d : Dialect) :
  Diff o d projected addEmail_desired scenario2_live
  = Ok ["ALTER TABLE " +:+ dialect.Quote d "user" +:+ " ADD "
          +:+ dialect.Quote d "email"]
  ∧ Diff keyOrder sampleDialect projected addEmail_desired scenario2_live
    = Ok ["ALTER TABLE `user` ADD `email`"]
  ∧ columnSQL sampleDialect emailPlain = "`email` VARCHAR(255) NOT NULL".
Proof.
  split; [|split; by vm_compute].
  unfold Diff. rewrite tableNames_order_irrelevant.
  replace (tableNames keyOrder addEmail_desired) with ["user"] by (by vm_compute).
  pass_steps.
  rewrite (tablePass_live o d projected _ "user" (mkTable [ageColumn; emailPlain] "")
             [ageColumn] [ageColumn]) by done.
  pass_steps. rewrite addEmail_plan, addEmail_indexes. cbn [fst snd].
  rewrite range_empty.
  replace (delete "user" scenario2_live) with (∅ : gmap string (list field))
    by (by vm_compute).
  by rewrite range_empty.
Qed.

(** *** Witnesses *)



Lemma spans_plan_a :
  makeAlterTableFields [xField; yField] [yField] = [mkModified (Some xField) None].
Proof. by vm_compute. Qed.

(** Table [a] drops its column [x]; in the pass of table [b] the index
    [x] of [b] is computed for dropping, and no DROP INDEX is emitted. *)
Lemma dropped_column_set_spans_tables_witness :
  let st0 := mkState [] [] ∅ spans_desired spans_live in
  let st1 :=
    mkState ["ALTER TABLE `a` DROP `x`"] [xField; yField] {["x"]}
      (delete "a" spans_desired) (delete "a" spans_live) in
  let st2 :=
    mkState ["ALTER TABLE `a` DROP `x`"] [xField; yField; xIndexed; yField] {["x"]}
      (delete "b" (delete "a" spans_desired)) (delete "b" (delete "a" spans_live)) in
  tablePass keyOrder sampleDialect projected st0 "a" = Ok st1
  ∧ tablePass keyOrder sampleDialect projected st1 "b" = Ok st2
  ∧ "x" ∈ droppedColumn st2
  ∧ (makeIndexMap (oldFields st2) [xField; yField]).2 !! "x"
    = Some (mkIndex ["x"] false)
  ∧ migrations st2 = ["ALTER TABLE `a` DROP `x`"].
Proof.
  intros st0 st1 st2.
  assert (tablePass keyOrder sampleDialect projected st0 "a" = Ok st1) as Hpass1
    by (vm_compute; reflexivity).
  assert (tablePass keyOrder sampleDialect projected st1 "b" = Ok st2) as Hpass2
    by (vm_compute; reflexivity).
  destruct (dropped_column_set_spans_tables keyOrder sampleDialect projected
              st0 st1 st1 st2 "a" "b" []
              (mkTable [yField] "") [xField; yField] [xField; yField] xField)
    as (Hin & Hsub1 & Hsub2 & _).
  - reflexivity.
  - reflexivity.
  - reflexivity.
  - cbn [Fields]. rewrite spans_plan_a. constructor.
  - exact Hpass1.
  - reflexivity.
  - exact Hpass2.
  - split; [exact Hpass1|]. split; [exact Hpass2|].
    split; [apply Hsub2, Hsub1, Hin|].
    split; vm_compute; reflexivity.
Defined.

(** * Further properties *)

(** ** The type equivalence registry is an equivalence relation *)

Lemma isSameType_sym (a b : string) : isSameType a b = isSameType b a.
Proof.
  apply eq_true_iff_eq. rewrite !isSameType_spec.
  split; (intros [->|(c & Hc & H1 & H2)]; [by left | right; by exists c]).
Qed.

(** X1: [isSameType] is reflexive, symmetric and transitive: the registered
    classes partition the tokens, so equivalence never chains from one
    class into another. *)
Theorem isSameType_equivalence (a b c : string) :
  isSameType a a = true
  ∧ isSameType a b = isSameType b a
  ∧ (isSameType a b = true → isSameType b c = true → isSameType a c = true).
Proof.
  split; [apply isSameType_refl|]. split; [apply isSameType_sym|].
  rewrite !isSameType_spec.
  intros [->|(c1 & Hc1 & Ha & Hb)]; [done|].
  intros [<-|(c2 & Hc2 & Hb' & Hc)]; right; [by exists c1|].
  exists c1. split; [done|]. split; [done|].
  by rewrite (sameTypeClasses_unique b c1 c2).
Qed.

(** ** [IsDifferent] does not depend on which field is the old one *)

(** X2: [IsDifferent] gives the same answer when receiver and argument are
    exchanged, nil pointers included, and no field differs from itself. *)
Theorem IsDifferent_symmetric (f another : option field) :
  IsDifferent f another = IsDifferent another f
  ∧ IsDifferent f f = false.
Proof.
  split.
  - destruct f as [f|], another as [g|]; simpl; try done.
    rewrite (isSameType_sym (Typ f)), (String.eqb_sym (Default f)),
      (N.eqb_sym (Size f)), (String.eqb_sym (Column f)),
      (String.eqb_sym (Comment f)).
    by destruct (AutoIncrement f), (AutoIncrement g), (PrimaryKey f), (PrimaryKey g).
  - destruct f as [f|]; [apply IsDifferent_same | done].
Qed.

(** ** The plan of the field-level differ *)

Lemma columnTable_snoc (fields : list field) (f : field) :
  columnTable (fields ++ [f]) = <[Column f := f]> (columnTable fields).
Proof. unfold columnTable. by rewrite fold_left_app. Qed.

Lemma columnTable_Some (fields : list field) (c : string) (g : field) :
  columnTable fields !! c = Some g → g ∈ fields ∧ Column g = c.
Proof.
  induction fields as [|f fields IH] using rev_ind; [done|].
  rewrite columnTable_snoc. destruct (decide (Column f = c)) as [<-|Hne].
  - rewrite lookup_insert_eq. intros [= <-]. split; [|done].
    apply elem_of_app. right. by left.
  - rewrite lookup_insert_ne by done. intros [Hg Hc]%IH. split; [|done].
    apply elem_of_app. by left.
Qed.

Lemma columnTable_None (fields : list field) (c : string) :
  columnTable fields !! c = None ↔ c ∉ map Column fields.
Proof.
  induction fields as [|f fields IH] using rev_ind.
  - split; [intros _ []%elem_of_nil | done].
  - rewrite columnTable_snoc, map_app, elem_of_app. simpl.
    rewrite list_elem_of_singleton.
    destruct (decide (Column f = c)) as [<-|Hne].
    + rewrite lookup_insert_eq. split; [done|]. intros Hno. destruct Hno. by right.
    + rewrite lookup_insert_ne, IH by done. split.
      * intros Hno [?|?]; [done | by subst].
      * intros Hno ?. apply Hno. by left.
Qed.

(** X3: Every change of the plan is exactly one of Added, Modified, Dropped,
    and is what its name says: an Added field is a desired field whose
    column no old field has; a Modified one pairs a desired field with an
    old field of the same column from which it differs; a Dropped one is
    an old field whose column no desired field has.  Each change gives one
    statement. *)
Theorem plan_changes_are_classified (d : Dialect) (tableName : string)
    (oldFields newFields : list field) :
  Forall (λ f,
      (∃ fnew, f = mkModified None (Some fnew)
         ∧ fnew ∈ newFields ∧ Column fnew ∉ map Column oldFields)
      ∨ (∃ fold fnew, f = mkModified (Some fold) (Some fnew)
           ∧ fold ∈ oldFields ∧ fnew ∈ newFields
           ∧ Column fold = Column fnew
           ∧ IsDifferent (Some fold) (Some fnew) = true)
      ∨ (∃ fold, f = mkModified (Some fold) None
           ∧ fold ∈ oldFields ∧ Column fold ∉ map Column newFields))
    (makeAlterTableFields oldFields newFields)
  ∧ length (alterStatements d tableName
              (makeAlterTableFields oldFields newFields) [])
    = length (makeAlterTableFields oldFields newFields).
Proof.
  split.
  - rewrite makeAlterTableFields_eq. apply Forall_app. split.
    + apply Forall_forall.
      intros f (fnew & -> & [Hdiff Hin]%list_elem_of_filter)%list_elem_of_fmap.
      destruct (columnTable oldFields !! Column fnew) as [fold|] eqn:Hold.
      * right. left. apply columnTable_Some in Hold as [Hfold Hcol].
        by exists fold, fnew.
      * left. exists fnew. by apply columnTable_None in Hold.
    + apply Forall_forall.
      intros f (fold & -> & [Hnone Hin]%list_elem_of_filter)%list_elem_of_fmap.
      right. right. exists fold. by apply columnTable_None in Hnone.
  - rewrite alterStatements_eq, makeAlterTableFields_eq. simpl.
    rewrite map_app, concat_app, !length_app, !length_map.
    f_equal.
    + induction (changedFields oldFields newFields) as [|f fields IH]; [done|].
      simpl. rewrite length_app, IH. unfold alterSQL. simpl.
      by destruct (columnTable oldFields !! Column f).
    + induction (droppedFields oldFields newFields) as [|f fields IH]; [done|].
      simpl. by rewrite IH.
Qed.

(** ** The index differ, as contributions of the desired fields *)

Lemma collectIndexes_contributions (names others : list string) (u : bool)
    (column : string) (m : gmap string index) :
  collectIndexes names others u column m
  = fold_left applyContribution (contributions names others u column) m.
Proof.
  unfold collectIndexes, contributions. revert m.
  induction names as [|name names IH]; intros m; simpl; [done|].
  rewrite filter_cons. destruct (inStrings others name) eqn:Hin; simpl.
  - rewrite decide_False by (apply inStrings_elem_of in Hin; auto). apply IH.
  - rewrite decide_True; [apply IH|].
    intros Hn%inStrings_elem_of. congruence.
Qed.

Lemma makeIndexMap_contributions (oldFields newFields : list field) :
  makeIndexMap oldFields newFields
  = (fold_left applyContribution (addContributions oldFields newFields) ∅,
     fold_left applyContribution (dropContributions oldFields newFields) ∅).
Proof.
  unfold makeIndexMap, addContributions, dropContributions.
  generalize (∅ : gmap string index) at 1 3 as addIndexMap.
  generalize (∅ : gmap string index) as dropIndexMap.
  induction newFields as [|f newFields IH]; intros dropIndexMap addIndexMap; simpl;
    [done|].
  rewrite !collectIndexes_contributions, IH, !fold_left_app. done.
Qed.

Lemma lookup_contributions (cs : list (string * bool * string))
    (m : gmap string index) (name : string) :
  fold_left applyContribution cs m !! name
  = match m !! name with
    | Some idx =>
        Some (mkIndex (Columns idx ++ map snd (filter (λ c, c.1.1 = name) cs))
                (index_Unique idx))
    | None => indexOf name cs
    end.
Proof.
  unfold indexOf. revert m.
  induction cs as [|[[n u] c] cs IH]; intros m; simpl.
  - destruct (m !! name) as [[cols uq]|]; [|done]. simpl. by rewrite app_nil_r.
  - rewrite IH, filter_cons. unfold applyContribution, appendIndexColumn. simpl.
    destruct (decide (n = name)) as [->|Hne].
    + rewrite lookup_insert_eq. simpl.
      destruct (m !! name) as [[cols uq]|]; simpl; [by rewrite <- app_assoc | done].
    + by rewrite lookup_insert_ne.
Qed.

Lemma makeIndexMap_lookup (oldFields newFields : list field) (name : string) :
  (makeIndexMap oldFields newFields).1 !! name
  = indexOf name (addContributions oldFields newFields)
  ∧ (makeIndexMap oldFields newFields).2 !! name
    = indexOf name (dropContributions oldFields newFields).
Proof.
  rewrite makeIndexMap_contributions. simpl.
  by rewrite !lookup_contributions, !lookup_empty.
Qed.

(** X4: The maps of [makeIndexMap], read by index name: an index to create
    (to drop) holds the columns of the desired fields that contribute to
    it, in field order, and the unique flag of the first contribution.  A
    desired field contributes to the index to create under every index
    name it bears that its old field does not bear, and to the index to
    drop under every index name its old field bears that it does not. *)
Theorem makeIndexMap_by_name (oldFields newFields : list field) (name : string) :
  (makeIndexMap oldFields newFields).1 !! name
  = indexOf name (addContributions oldFields newFields)
  ∧ (makeIndexMap oldFields newFields).2 !! name
    = indexOf name (dropContributions oldFields newFields).
Proof.
  rewrite makeIndexMap_contributions. simpl.
  by rewrite !lookup_contributions, !lookup_empty.
Qed.

Lemma elem_of_contributions (names others : list string) (u : bool)
    (column : string) (c : string * bool * string) :
  c ∈ contributions names others u column →
  c.2 = column ∧ c.1.1 ∈ names ∧ c.1.1 ∉ others.
Proof.
  unfold contributions.
  intros (name & -> & [Hno Hin]%list_elem_of_filter)%list_elem_of_fmap. done.
Qed.

Lemma indexOf_columns (name : string) (cs : list (string * bool * string))
    (idx : index) (column : string) :
  indexOf name cs = Some idx → column ∈ Columns idx →
  ∃ c, c ∈ cs ∧ c.1.1 = name ∧ c.2 = column.
Proof.
  unfold indexOf.
  destruct (filter (λ c, c.1.1 = name) cs) as [|[[n u] c0] mine] eqn:Hmine; [done|].
  intros [= <-]. cbn [Columns].
  change (c0 :: map snd mine) with (map snd ((n, u, c0) :: mine)).
  rewrite <- Hmine. intros (c & -> & Hc)%list_elem_of_fmap. apply list_elem_of_filter in Hc as [Hname Hin].
  by exists c.
Qed.

Lemma drop_index_columns (oldFields newFields : list field) :
  map_Forall (λ _ idx,
      Forall (λ c, c ∈ map Column oldFields ∧ c ∈ map Column newFields)
        (Columns idx))
    (makeIndexMap oldFields newFields).2.
Proof.
  intros name idx Hidx. apply Forall_forall. intros column Hcol.
  rewrite (proj2 (makeIndexMap_lookup oldFields newFields name)) in Hidx.
  destruct (indexOf_columns _ _ _ _ Hidx Hcol) as (c & Hc & _ & <-).
  unfold dropContributions in Hc. apply list_elem_of_In, in_flat_map in Hc
    as (f & Hf%list_elem_of_In & Hc%list_elem_of_In).
  destruct (columnTable oldFields !! Column f) as [fold|] eqn:Hold; simpl in Hc.
  - apply columnTable_Some in Hold as [Hfold Hsame].
    apply elem_of_app in Hc as [Hc|Hc];
      apply elem_of_contributions in Hc as (-> & _); split.
    all: try (apply list_elem_of_fmap; by exists fold).
    all: rewrite Hsame; apply list_elem_of_fmap; by exists f.
  - by apply elem_of_nil in Hc.
Qed.

Lemma add_index_columns (oldFields newFields : list field) :
  map_Forall (λ _ idx, Forall (λ c, c ∈ map Column newFields) (Columns idx))
    (makeIndexMap oldFields newFields).1.
Proof.
  intros name idx Hidx. apply Forall_forall. intros column Hcol.
  rewrite (proj1 (makeIndexMap_lookup oldFields newFields name)) in Hidx.
  destruct (indexOf_columns _ _ _ _ Hidx Hcol) as (c & Hc & _ & <-).
  unfold addContributions in Hc. apply list_elem_of_In, in_flat_map in Hc
    as (f & Hf%list_elem_of_In & Hc%list_elem_of_In).
  apply elem_of_app in Hc as [Hc|Hc];
    apply elem_of_contributions in Hc as (-> & _);
    apply list_elem_of_fmap; by exists f.
Qed.

(** X5: An index is computed for dropping only from columns that are both
    old and desired, so never from a column that the plan drops; an index
    is computed for creation only from desired columns; and every computed
    index has at least one column. *)
Theorem index_changes_concern_desired_columns (oldFields newFields : list field) :
  map_Forall (λ _ idx,
      Columns idx ≠ []
      ∧ Forall (λ c, c ∈ map Column oldFields ∧ c ∈ map Column newFields)
          (Columns idx))
    (makeIndexMap oldFields newFields).2
  ∧ map_Forall (λ _ idx,
        Columns idx ≠ []
        ∧ Forall (λ c, c ∈ map Column newFields) (Columns idx))
      (makeIndexMap oldFields newFields).1.
Proof.
  destruct (makeIndexMap_hasColumns oldFields newFields) as [Hadd Hdrop].
  split; intros name idx Hidx.
  - split; [by apply (Hdrop name) | by apply (drop_index_columns oldFields newFields name)].
  - split; [by apply (Hadd name) | by apply (add_index_columns oldFields newFields name)].
Qed.

(** ** Index drops and dropped columns *)



Section DropSuppression.

Context (o : MapRange) (d : Dialect) {C : Type} (project : C → outcome field).


End DropSuppression.




(** ** The loop over the tables *)

Lemma filter_all {A : Type} (P : A → Prop) `{∀ x, Decision (P x)} (l : list A) :
  (∀ x, x ∈ l → P x) → filter P l = l.
Proof.
  induction l as [|x l IH]; intros Hall; [done|].
  rewrite filter_cons, decide_True by (apply Hall; by left).
  f_equal. apply IH. intros y Hy. apply Hall. by right.
Qed.

Lemma dropContributions_nil (newFields : list field) :
  dropContributions [] newFields = [].
Proof.
  unfold dropContributions. induction newFields as [|f newFields IH]; [done|].
  simpl. by rewrite IH.
Qed.

Lemma makeIndexMap_nil_drop (newFields : list field) :
  (makeIndexMap [] newFields).2 = ∅.
Proof. by rewrite makeIndexMap_contributions, dropContributions_nil. Qed.

Section LoopProperties.

Context (o : MapRange) (d : Dialect) {C : Type} (project : C → outcome field).

Lemma appendProjected_outcome (olds : list field) (columns : list C) :
  match appendProjected project olds columns with
  | Ok _ => Forall (λ c, ∃ f, project c = Ok f) columns
  | Err e => ∃ c, c ∈ columns ∧ project c = Err e
  | Panic => ∃ c, c ∈ columns ∧ project c = Panic
  end.
Proof.
  revert olds. induction columns as [|c columns IH]; intros olds; simpl; [done|].
  destruct (project c) as [f|e|] eqn:Hc; simpl.
  - specialize (IH (olds ++ [f])).
    destruct (appendProjected project (olds ++ [f]) columns).
    + constructor; [by exists f | done].
    + destruct IH as (c' & Hin & Hc'). exists c'. split; [by right | done].
    + destruct IH as (c' & Hin & Hc'). exists c'. split; [by right | done].
  - exists c. split; [by left | done].
  - exists c. split; [by left | done].
Qed.

Lemma tablePass_outcome (st : diffState C) (name : string) (tbl : table) :
  structMap st !! name = Some tbl →
  match tablePass o d project st name with
  | Ok st' =>
      structMap st' = delete name (structMap st)
      ∧ tableMap st' = delete name (tableMap st)
      ∧ (∀ columns, tableMap st !! name = Some columns →
           Forall (λ c, ∃ f, project c = Ok f) columns)
      ∧ ∃ added, migrations st' = migrations st ++ added ∧ Forall notDropTable added
  | Err e =>
      ∃ columns c, tableMap st !! name = Some columns ∧ c ∈ columns ∧ project c = Err e
  | Panic =>
      ∃ columns c, tableMap st !! name = Some columns ∧ c ∈ columns ∧ project c = Panic
  end.
Proof.
  intros Htbl. destruct (tableMap st !! name) as [columns|] eqn:Hcols.
  - pose proof (appendProjected_outcome (oldFields st) columns) as Hout.
    destruct (appendProjected project (oldFields st) columns) as [olds|e|] eqn:Holds.
    + rewrite (tablePass_live o d project st name tbl columns olds) by done.
      cbn [structMap tableMap migrations]. split; [done|]. split; [done|].
      split; [by intros ? [= <-]|].
      rewrite alterStatements_eq, <- app_assoc. eexists. split; [done|].
      rewrite !Forall_app. split; [|split].
      * apply Forall_concat, Forall_forall.
        intros l (f & -> & _)%list_elem_of_fmap.
        unfold alterSQL. destruct (old f), (new f); repeat constructor.
      * apply Forall_forall. by intros s (entry & -> & _)%list_elem_of_fmap.
      * apply Forall_forall. intros s (entry & -> & _)%list_elem_of_fmap.
        unfold createIndexSQL. by destruct (index_Unique entry.2).
    + unfold tablePass, fieldPass. rewrite Hcols, Holds. simpl.
      destruct Hout as (c & Hin & Hc). by exists columns, c.
    + unfold tablePass, fieldPass. rewrite Hcols, Holds. simpl.
      destruct Hout as (c & Hin & Hc). by exists columns, c.
  - rewrite (tablePass_create o d project st name tbl) by done.
    cbn [structMap tableMap migrations]. split; [done|]. split; [done|].
    split; [done|].
    rewrite <- app_assoc. eexists. split; [done|].
    rewrite !Forall_app. split; [|split].
    + repeat constructor. unfold createTableSQL, notDropTable. by destruct (negb _).
    + apply Forall_forall. by intros s (entry & -> & _)%list_elem_of_fmap.
    + apply Forall_forall. intros s (entry & -> & _)%list_elem_of_fmap.
      unfold createIndexSQL. by destruct (index_Unique entry.2).
Qed.

Lemma diffLoop_outcome (names : list string) (st : diffState C) :
  NoDup names →
  (∀ n, n ∈ names → is_Some (structMap st !! n)) →
  match diffLoop o d project names st with
  | Ok st' =>
      (∀ k, tableMap st' !! k
            = if decide (k ∈ names) then None else tableMap st !! k)
      ∧ (∀ n columns, n ∈ names → tableMap st !! n = Some columns →
           Forall (λ c, ∃ f, project c = Ok f) columns)
      ∧ ∃ added, migrations st' = migrations st ++ added ∧ Forall notDropTable added
  | Err e =>
      ∃ n columns c,
        n ∈ names ∧ tableMap st !! n = Some columns ∧ c ∈ columns ∧ project c = Err e
  | Panic =>
      ∃ n columns c,
        n ∈ names ∧ tableMap st !! n = Some columns ∧ c ∈ columns ∧ project c = Panic
  end.
Proof.
  revert st. induction names as [|name names IH]; intros st Hnd Hdesired; simpl.
  - split; [done|]. split; [by intros ? ? ?%elem_of_nil|].
    exists []. by rewrite app_nil_r.
  - apply NoDup_cons in Hnd as [Hname Hnd].
    destruct (Hdesired name) as [tbl Htbl]; [by left|].
    pose proof (tablePass_outcome st name tbl Htbl) as Hpass.
    destruct (tablePass o d project st name) as [st1|e|]; simpl.
    + destruct Hpass as (Hstruct & Htable & Hproj & added1 & Hmig1 & Hadded1).
      assert (∀ n, n ∈ names → is_Some (structMap st1 !! n)) as Hdesired1.
      { intros n Hn. rewrite Hstruct, lookup_delete_ne by (by intros ->).
        apply Hdesired. by right. }
      specialize (IH st1 Hnd Hdesired1).
      destruct (diffLoop o d project names st1) as [st2|e|].
      * destruct IH as (Hlookup & Hproj' & added2 & Hmig2 & Hadded2).
        split; [|split].
        -- intros k. rewrite Hlookup, Htable.
           destruct (decide (k = name)) as [->|Hne].
           ++ rewrite lookup_delete_eq, (decide_True (P := name ∈ name :: names))
                by (by left).
              by destruct (decide (name ∈ names)).
           ++ rewrite lookup_delete_ne by done.
              destruct (decide (k ∈ names)) as [Hin|Hnin].
              ** rewrite decide_True; [done | by right].
              ** rewrite decide_False; [done|]. by intros [?|?]%elem_of_cons.
        -- intros n columns [->|Hn]%elem_of_cons Hcols; [by apply Hproj|].
           apply (Hproj' n); [done|]. rewrite Htable, lookup_delete_ne; [done|].
           by intros ->.
        -- exists (added1 ++ added2). rewrite Hmig2, Hmig1, <- app_assoc.
           split; [done|]. by apply Forall_app.
      * destruct IH as (n & columns & c & Hn & Hcols & Hc & Herr).
        exists n, columns, c. split; [by right|]. split; [|done].
        rewrite Htable in Hcols. by apply lookup_delete_Some in Hcols as [_ ?].
      * destruct IH as (n & columns & c & Hn & Hcols & Hc & Herr).
        exists n, columns, c. split; [by right|]. split; [|done].
        rewrite Htable in Hcols. by apply lookup_delete_Some in Hcols as [_ ?].
    + destruct Hpass as (columns & c & Hcols & Hc & Herr).
      exists name, columns, c. split; [by left | done].
    + destruct Hpass as (columns & c & Hcols & Hc & Herr).
      exists name, columns, c. split; [by left | done].
Qed.

Lemma tableNames_spec (desired : gmap string table) :
  NoDup (tableNames o desired)
  ∧ ∀ n, n ∈ tableNames o desired ↔ is_Some (desired !! n).
Proof.
  destruct (tableNames_sorted o desired) as [_ Hperm]. split.
  - rewrite Hperm. apply NoDup_fst_map_to_list.
  - intros n. rewrite Hperm, list_elem_of_fmap. split.
    + intros ([k tbl] & -> & Hin%elem_of_map_to_list). by exists tbl.
    + intros [tbl Htbl]. exists (n, tbl). split; [done|].
      by apply elem_of_map_to_list.
Qed.

Lemma dropTableStatements_eq (entries : list (string * list C))
    (migrations : list string) :
  dropTableStatements d entries migrations
  = migrations ++ map (λ entry, "DROP TABLE " +:+ dialect.Quote d entry.1) entries.
Proof.
  unfold dropTableStatements. revert migrations.
  induction entries as [|entry entries IH]; intros migrations; simpl.
  - by rewrite app_nil_r.
  - by rewrite IH, <- app_assoc.
Qed.

(** X6: [Diff] fails only when the projection of a live column fails, and
    then with that failure; in particular it never panics by itself (no
    nil table, no index without columns).  It returns statements exactly
    when every column of every live table that the desired model names
    projects to a field. *)
Theorem Diff_fails_only_with_the_projection (desired : gmap string table)
    (live : gmap string (list C)) :
  match Diff o d project desired live with
  | Ok _ =>
      ∀ n columns c,
        is_Some (desired !! n) → live !! n = Some columns → c ∈ columns →
        ∃ f, project c = Ok f
  | Err e =>
      ∃ n columns c,
        is_Some (desired !! n) ∧ live !! n = Some columns ∧ c ∈ columns
        ∧ project c = Err e
  | Panic =>
      ∃ n columns c,
        is_Some (desired !! n) ∧ live !! n = Some columns ∧ c ∈ columns
        ∧ project c = Panic
  end.
Proof.
  unfold Diff. destruct (tableNames_spec desired) as [Hnd Hnames].
  pose proof (diffLoop_outcome (tableNames o desired)
                (mkState [] [] ∅ desired live) Hnd) as Hloop.
  cbn [structMap tableMap] in Hloop.
  specialize (Hloop (λ n Hn, proj1 (Hnames n) Hn)).
  destruct (diffLoop o d project (tableNames o desired) _) as [st|e|]; simpl.
  - destruct Hloop as (_ & Hproj & _). intros n columns c Hn Hcols Hc.
    apply Hnames in Hn. specialize (Hproj n columns Hn Hcols).
    rewrite Forall_forall in Hproj. by apply Hproj.
  - destruct Hloop as (n & columns & c & Hn%Hnames & Hrest). by exists n, columns, c.
  - destruct Hloop as (n & columns & c & Hn%Hnames & Hrest). by exists n, columns, c.
Qed.

(** X7: When [Diff] returns, its statements end with one DROP TABLE for each
    live table that the desired model does not name, and these are the
    only DROP TABLE statements. *)
Theorem Diff_drops_the_tables_without_model (desired : gmap string table)
    (live : gmap string (list C)) (sqls : list string) :
  Diff o d project desired live = Ok sqls →
  ∃ body,
    sqls
    = body
      ++ map (λ entry, "DROP TABLE " +:+ dialect.Quote d entry.1)
           (range o (filter (λ entry, desired !! entry.1 = None) live))
    ∧ Forall (λ s, String.prefix "DROP TABLE " s = false) body.
Proof.
  unfold Diff. destruct (tableNames_spec desired) as [Hnd Hnames].
  pose proof (diffLoop_outcome (tableNames o desired)
                (mkState [] [] ∅ desired live) Hnd) as Hloop.
  cbn [structMap tableMap migrations] in Hloop.
  specialize (Hloop (λ n Hn, proj1 (Hnames n) Hn)).
  destruct (diffLoop o d project (tableNames o desired) _) as [st|e|]; simpl; [|done..].
  destruct Hloop as (Hlookup & _ & body & Hmig & Hbody).
  intros [= <-]. exists body. rewrite dropTableStatements_eq, Hmig. simpl.
  split; [|done]. do 3 f_equal. apply map_eq. intros k. rewrite Hlookup.
  destruct (decide (k ∈ tableNames o desired)) as [Hin|Hnin].
  - apply Hnames in Hin as [tbl Htbl]. symmetry. apply map_lookup_filter_None.
    right. intros columns _. simpl. by rewrite Htbl.
  - assert (desired !! k = None) as Hnone.
    { apply eq_None_not_Some. by rewrite <- Hnames. }
    destruct (live !! k) as [columns|] eqn:Hlive; symmetry.
    + by apply map_lookup_filter_Some.
    + apply map_lookup_filter_None. by left.
Qed.

End LoopProperties.

Section FreshCatalog.

Context (o : MapRange) (d : Dialect) {C : Type} (project : C → outcome field).

Lemma diffLoop_create (desired : gmap string table) (names : list string)
    (st : diffState C) :
  NoDup names →
  (∀ n, n ∈ names → is_Some (desired !! n) ∧ structMap st !! n = desired !! n) →
  oldFields st = [] → tableMap st = ∅ →
  ∃ st',
    diffLoop o d project names st = Ok st'
    ∧ tableMap st' = ∅
    ∧ migrations st'
      = migrations st
        ++ flat_map (λ n,
             match desired !! n with
             | Some tbl => createStatements o d n tbl
             | None => []
             end) names.
Proof.
  revert st. induction names as [|name names IH]; intros st Hnd Hdesired Hold Hlive;
    simpl.
  - exists st. by rewrite app_nil_r.
  - apply NoDup_cons in Hnd as [Hname Hnd].
    destruct (Hdesired name) as [[tbl Htbl] Hst]; [by left|].
    rewrite Htbl in Hst.
    rewrite (tablePass_create o d project st name tbl) by (by rewrite ?Hlive).
    simpl. rewrite Hold, makeIndexMap_nil_drop, range_empty. simpl.
    match goal with
    | |- context [diffLoop _ _ _ names ?s] =>
        destruct (IH s) as (st' & Hloop & Hlive' & Hmig)
    end; [done| |done|by cbn [tableMap]; rewrite Hlive, delete_empty|].
    { intros n Hn. destruct (Hdesired n) as [Hsome Hsame]; [by right|].
      split; [done|]. cbn [structMap]. rewrite lookup_delete_ne; [done|].
      by intros ->. }
    exists st'. split; [exact Hloop|]. split; [done|].
    rewrite Hmig. cbn [migrations]. rewrite Htbl. unfold createStatements.
    by rewrite <- !app_assoc.
Qed.

(** X8: Against an empty live catalog [Diff] always returns, with, for each
    desired table in ascending order of the names, its CREATE TABLE
    followed by its CREATE INDEX statements, and nothing else: no ALTER,
    no DROP. *)
Theorem Diff_creates_everything_on_an_empty_catalog (desired : gmap string table) :
  Diff o d project desired ∅
  = Ok (flat_map (λ n,
          match desired !! n with
          | Some tbl => createStatements o d n tbl
          | None => []
          end) (tableNames o desired)).
Proof.
  unfold Diff. destruct (tableNames_spec o desired) as [Hnd Hnames].
  destruct (diffLoop_create desired (tableNames o desired)
              (mkState [] [] ∅ desired ∅) Hnd)
    as (st' & -> & Hlive & Hmig); [|done..|].
  { intros n Hn. split; [by apply Hnames | done]. }
  simpl. by rewrite Hlive, range_empty, Hmig.
Qed.

(** X9: In the pass of a live table, a DROP INDEX is held back only by a
    column dropped in the pass of an earlier table: when none of the
    desired columns of the table is in [droppedColumn] at the start of the
    pass, one DROP INDEX is emitted for every computed index drop.  The
    columns that this pass itself drops never hold one back. *)
Theorem index_drops_are_held_back_by_earlier_tables_only (st : diffState C)
    (name : string) (tbl : table) (columns : list C) (olds : list field) :
  structMap st !! name = Some tbl →
  tableMap st !! name = Some columns →
  appendProjected project (oldFields st) columns = Ok olds →
  (∀ f, f ∈ Fields tbl → Column f ∉ droppedColumn st) →
  ∃ st',
    tablePass o d project st name = Ok st'
    ∧ migrations st'
      = alterStatements d (dialect.Quote d name)
          (makeAlterTableFields olds (Fields tbl)) (migrations st)
        ++ map (dropIndexSQL d (dialect.Quote d name))
             (range o (makeIndexMap olds (Fields tbl)).2)
        ++ map (createIndexSQL d (dialect.Quote d name))
             (range o (makeIndexMap olds (Fields tbl)).1).
Proof.
  intros Htbl Hcols Holds Hfresh.
  rewrite (tablePass_live o d project st name tbl columns olds) by done.
  eexists. split; [done|]. cbn [migrations]. do 3 f_equal.
  apply filter_all. intros [n idx] Hentry%elem_of_range (c & Hhead & Hc).
  pose proof (drop_index_columns olds (Fields tbl) n idx Hentry) as Hdrop. cbn beta in Hdrop. simpl in Hhead.
  destruct (Columns idx) as [|c0 rest]; [done|]. injection Hhead as ->.
  apply Forall_cons in Hdrop as [[_ Hnew] _].
  apply elem_of_recordDropped in Hc as [Hc|(fold & Hplan & <-)].
  - apply list_elem_of_fmap in Hnew as (f & -> & Hf). by apply (Hfresh f).
  - rewrite makeAlterTableFields_eq in Hplan.
    apply elem_of_app in Hplan as [Hplan|Hplan];
      apply list_elem_of_fmap in Hplan as (g & Heq & Hg); [done|].
    injection Heq as ->.
    apply list_elem_of_filter in Hg as [Hnone%columnTable_None _]. done.
Qed.

End FreshCatalog.

(** The live tables [legacy] and [user] against a model of [user]
    alone. *)
Lemma Diff_drops_the_tables_without_model_witness :
  Diff keyOrder sampleDialect projected unindex_desired legacy_live
  = Ok ["DROP INDEX `name` ON `user`"; "DROP TABLE `legacy`"]
  ∧ ∃ body,
      ["DROP INDEX `name` ON `user`"; "DROP TABLE `legacy`"]
      = body
        ++ map (λ entry, "DROP TABLE " +:+ dialect.Quote sampleDialect entry.1)
             (range keyOrder
                (filter (λ entry, unindex_desired !! entry.1 = None) legacy_live))
      ∧ Forall (λ s, String.prefix "DROP TABLE " s = false) body.
Proof.
  assert (Diff keyOrder sampleDialect projected unindex_desired legacy_live
          = Ok ["DROP INDEX `name` ON `user`"; "DROP TABLE `legacy`"]) as Hdiff
    by (vm_compute; reflexivity).
  split; [exact Hdiff|].
  exact (Diff_drops_the_tables_without_model keyOrder sampleDialect projected
           unindex_desired legacy_live _ Hdiff).
Defined.

(** The first pass of a run, on a table whose column loses its index. *)
Lemma index_drops_are_held_back_by_earlier_tables_only_witness :
  ∃ st' : diffState field,
    tablePass keyOrder sampleDialect projected
      (mkState [] [] ∅ unindex_desired unindex_live) "user" = Ok st'
    ∧ migrations st' = ["DROP INDEX `name` ON `user`"].
Proof.
  destruct (index_drops_are_held_back_by_earlier_tables_only keyOrder sampleDialect
              projected (mkState [] [] ∅ unindex_desired unindex_live) "user"
              (mkTable [nameField] "") [nameIndexed] [nameIndexed])
    as (st' & Hpass & Hmig).
  - reflexivity.
  - reflexivity.
  - reflexivity.
  - intros f _. apply not_elem_of_empty.
  - exists st'. split; [exact Hpass|]. rewrite Hmig. vm_compute. reflexivity.
Defined.


(** ** The catalog projection *)

Ltac registry_case :=
  split;
  [ first [ left; apply (bool_decide_unpack _); vm_compute; reflexivity
          | right; eexists; split; [reflexivity | vm_compute; reflexivity] ]
  | eexists _, _; split; [reflexivity | reflexivity] ].

(** X11: [GoFieldTypes] never panics.  It returns types exactly for the
    supported data types, and for any other data type the "unexpected data
    type" error.  The types are either one of the registered equivalence
    classes, whole and in the order of the registry, or a single type that
    no class lists; the first type, which the projection uses, is a
    pointer type exactly when the column is nullable. *)
Theorem GoFieldTypes_agrees_with_the_registry (lib : golib) (schema : columnSchema) :
  match GoFieldTypes lib schema with
  | Ok types =>
      DataType schema ∈ supportedDataTypes
      ∧ (types ∈ sameTypeClasses ∨ ∃ t, types = [t] ∧ sameTypeMap !! t = None)
      ∧ ∃ t rest, types = t :: rest ∧ String.prefix "*" t = isNullable lib schema
  | Err e =>
      e = "BUG: unexpected data type: " +:+ DataType schema
      ∧ DataType schema ∉ supportedDataTypes
  | Panic => False
  end.
Proof.
  unfold GoFieldTypes.
  repeat match goal with
         | |- context [String.eqb (DataType schema) ?b] =>
             destruct (String.eqb_spec (DataType schema) b) as [Heq|?];
             [rewrite ?Heq; simpl|simpl]
         end;
    try (destruct (isUnsigned schema), (isNullable lib schema);
         (split; [apply (bool_decide_unpack _); vm_compute; reflexivity
                 | registry_case])).
  split; [done|]. unfold supportedDataTypes. intros Hin.
  repeat (apply elem_of_cons in Hin as [?|Hin]; [done|]).
  by apply elem_of_nil in Hin.
Qed.

(** ** Struct tags: what [fieldAST] writes, [parseStructTag] reads *)

Lemma Split_no_sep (s : string) (sep : ascii) :
  hasByte sep s = false → Split s sep = [s].
Proof.
  induction s as [|c s IH]; simpl; [done|].
  intros [Hc Hs]%orb_false_iff. by rewrite Hc, IH.
Qed.

Lemma Split_app_sep (e s : string) (sep : ascii) :
  hasByte sep e = false → Split (e +:+ String sep s) sep = e :: Split s sep.
Proof.
  induction e as [|c e IH]; intros Hno.
  - simpl. by rewrite Ascii.eqb_refl.
  - simpl in Hno. apply orb_false_iff in Hno as [Hc He].
    change (String c e +:+ String sep s) with (String c (e +:+ String sep s)).
    simpl. by rewrite Hc, IH.
Qed.

Lemma Split_Join (tags : list string) :
  tags ≠ [] → Forall (λ t, hasByte "," t = false) tags →
  Split (Join tags ",") "," = tags.
Proof.
  induction tags as [|e tags IH]; [done|]. intros _ Hall.
  apply Forall_cons in Hall as [He Htags]. destruct tags as [|e' tags].
  - by apply Split_no_sep.
  - change (Join (e :: e' :: tags) ",") with (e +:+ String "," (Join (e' :: tags) ",")).
    rewrite Split_app_sep by done. f_equal. by apply IH.
Qed.

Lemma digitValue_pretty_N_char (x : N) :
  (x < 10)%N → digitValue (pretty_N_char x) = Some x.
Proof.
  intros Hx.
  assert (x = 0 ∨ x = 1 ∨ x = 2 ∨ x = 3 ∨ x = 4 ∨ x = 5 ∨ x = 6 ∨ x = 7
          ∨ x = 8 ∨ x = 9)%N as Hcases by lia.
  repeat (destruct Hcases as [->|Hcases]; [done|]). by subst.
Qed.

Lemma parseDigits_pretty_N_go (x : N) (s : string) :
  (x ≤ maxUint64)%N → parseDigits (pretty_N_go x s) 0 = parseDigits s x.
Proof.
  revert s. induction (N.lt_wf_0 x) as [x _ IH]; intros s Hx.
  assert (x = 0 ∨ 0 < x)%N as [->|Hpos] by lia; [by rewrite pretty_N_go_0|].
  rewrite pretty_N_go_step by done.
  assert (x `div` 10 < x)%N as Hlt by (by apply N.div_lt).
  rewrite IH by (done || lia). simpl.
  rewrite digitValue_pretty_N_char by (by apply N.mod_lt).
  assert (x `div` 10 * 10 + x `mod` 10 = x)%N as ->.
  { rewrite (N.div_mod x 10) at 3 by done. lia. }
  by rewrite (proj2 (N.ltb_ge _ _) Hx).
Qed.

Lemma pretty_N_go_nonempty (x : N) (s : string) :
  s ≠ "" → pretty_N_go x s ≠ "".
Proof.
  revert s. induction (N.lt_wf_0 x) as [x _ IH]; intros s Hs.
  assert (x = 0 ∨ 0 < x)%N as [->|Hpos] by lia; [by rewrite pretty_N_go_0|].
  rewrite pretty_N_go_step by done. apply IH; [by apply N.div_lt | done].
Qed.

(** Reading back a size written in decimal. *)
Lemma ParseUint_pretty (n : N) : (n ≤ maxUint64)%N → ParseUint (pretty n) = inr n.
Proof.
  intros Hn. unfold ParseUint, pretty, pretty_N.
  destruct (decide (n = 0%N)) as [->|Hne]; [done|].
  assert (pretty_N_go n "" ≠ "") as Hfull.
  { rewrite pretty_N_go_step by lia. by apply pretty_N_go_nonempty. }
  apply String.eqb_neq in Hfull as ->.
  by rewrite parseDigits_pretty_N_go.
Qed.

Lemma hasByte_pretty_N_go (x : N) (s : string) :
  hasByte "," s = false → hasByte "," (pretty_N_go x s) = false.
Proof.
  revert s. induction (N.lt_wf_0 x) as [x _ IH]; intros s Hs.
  assert (x = 0 ∨ 0 < x)%N as [->|Hpos] by lia; [by rewrite pretty_N_go_0|].
  rewrite pretty_N_go_step by done. apply IH; [by apply N.div_lt|].
  simpl. rewrite Hs. unfold pretty_N_char. by repeat case_match.
Qed.

Lemma hasByte_pretty (n : N) : hasByte "," (pretty n) = false.
Proof.
  unfold pretty, pretty_N. destruct (decide (n = 0%N)); [done|].
  by apply hasByte_pretty_N_go.
Qed.

Section TagProperties.

Context (lib : golib).

Lemma applyOption_default (f : field) (v : string) :
  applyOption lib f (tagDefault +:+ ":" +:+ v) = Ok (setDefault f v).
Proof. reflexivity. Qed.

Lemma applyOption_index (f : field) (name : string) :
  applyOption lib f (tagIndex +:+ ":" +:+ name) = Ok (addRawIndex f name).
Proof. reflexivity. Qed.

Lemma applyOption_size (f : field) (n : N) :
  (n ≤ maxUint64)%N →
  applyOption lib f (tagSize +:+ ":" +:+ pretty n) = Ok (setSize f n).
Proof.
  intros Hn.
  change (applyOption lib f (tagSize +:+ ":" +:+ pretty n))
    with (match ParseUint (pretty n) with
          | inl e => Err (NumErrorText lib (pretty n) e)
          | inr size => Ok (setSize f size)
          end).
  by rewrite ParseUint_pretty.
Qed.

Lemma parseMigu_tags (f : field) (tags : list string) (c : ascii) (rest : string) :
  Join tags "," = String c rest →
  Forall (λ t, hasByte "," t = false) tags →
  parseMigu lib f (Join tags ",") = applyOptions lib f tags.
Proof.
  intros Hjoin Hall. unfold parseMigu. rewrite Split_Join; [|by intros ->|done].
  by rewrite Hjoin.
Qed.

Lemma applyOption_pk (f : field) :
  applyOption lib f tagPrimaryKey = Ok (setPrimaryKey f).
Proof. reflexivity. Qed.

Lemma applyOption_autoincrement (f : field) :
  applyOption lib f tagAutoIncrement = Ok (setAutoIncrement f).
Proof. reflexivity. Qed.

Lemma applyOption_index_plain (f : field) :
  applyOption lib f tagIndex = Ok (addRawIndex f "").
Proof. reflexivity. Qed.

Lemma applyOption_unique (f : field) :
  applyOption lib f tagUnique = Ok (setUnique f).
Proof. reflexivity. Qed.

Lemma applyOptions_cons (f : field) (opt : string) (opts : list string) :
  applyOptions lib f (opt :: opts)
  = applyOption lib f opt ≫= λ f, applyOptions lib f opts.
Proof. reflexivity. Qed.

Lemma hasByte_default (v : string) :
  hasByte "," (tagDefault +:+ ":" +:+ v) = hasByte "," v.
Proof. reflexivity. Qed.

Lemma hasByte_index (name : string) :
  hasByte "," (tagIndex +:+ ":" +:+ name) = hasByte "," name.
Proof. reflexivity. Qed.

Lemma hasByte_size (n : N) : hasByte "," (tagSize +:+ ":" +:+ pretty n) = false.
Proof. exact (hasByte_pretty n). Qed.

Lemma parseMigu_fieldTags (schema : columnSchema) (f : field) :
  (∀ v, ColumnDefault schema = Some v → hasByte "," v = false) →
  (hasIndex lib schema = true → hasByte "," (IndexName schema) = false) →
  (∀ n, CharacterMaximumLength schema = Some n → (n ≤ maxUint64)%N) →
  parseMigu lib f (Join (fieldTags lib schema) ",")
  = Ok (projectedOptions lib schema f)
  ∧ hasPrimaryKey lib schema && hasIndex lib schema = false
  ∧ hasPrimaryKey lib schema && hasUniqueKey lib schema = false
  ∧ hasIndex lib schema && hasUniqueKey lib schema = false.
Proof.
  intros Hdefault Hindex Hsize. split.
  2: { unfold hasIndex, hasUniqueKey.
       by destruct (hasPrimaryKey lib schema), (IndexName schema =? "")%string,
         (NonUnique schema =? 0)%Z. }
  unfold fieldTags, projectedOptions.
  destruct (ColumnDefault schema) as [v|];
    [specialize (Hdefault v eq_refl)|clear Hdefault].
  all: destruct (hasPrimaryKey lib schema), (hasAutoIncrement schema).
  all: destruct (hasIndex lib schema);
    [specialize (Hindex eq_refl);
     destruct (String.eqb (IndexName schema) (ColumnName schema))|clear Hindex].
  all: destruct (hasUniqueKey lib schema), (hasSize schema).
  all: destruct (CharacterMaximumLength schema) as [n|];
    [specialize (Hsize n eq_refl); destruct (N.eqb_spec n defaultVarcharSize)
    |clear Hsize].
  all: cbn [app negb andb].
  all: first
    [ (* no option at all *)
      destruct f; cbn; by rewrite ?app_nil_r, ?orb_false_r
    | erewrite parseMigu_tags;
      [ repeat (rewrite applyOptions_cons;
                first [ rewrite applyOption_default
                      | rewrite applyOption_index
                      | rewrite applyOption_size by done
                      | rewrite applyOption_pk
                      | rewrite applyOption_autoincrement
                      | rewrite applyOption_index_plain
                      | rewrite applyOption_unique ];
                cbn [mbind outcome_bind]);
        destruct f; cbn; by rewrite ?app_nil_r, ?orb_false_r, ?orb_true_r
      | reflexivity
      | repeat constructor;
        rewrite ?hasByte_default, ?hasByte_index, ?hasByte_size; done ] ].
Qed.

Lemma SplitN2_nonempty (s : string) (sep : ascii) : SplitN2 s sep ≠ [].
Proof.
  destruct s as [|c s]; simpl; [done|].
  destruct (Ascii.eqb c sep); [done|]. by destruct (SplitN2 s sep).
Qed.

Lemma applyOption_accepts (f : field) (opt : string) :
  applyOption lib f opt ≠ Panic
  ∧ ((∃ f', applyOption lib f opt = Ok f') ↔ acceptedOption opt).
Proof.
  unfold applyOption, acceptedOption.
  pose proof (SplitN2_nonempty opt ":") as Hne.
  destruct (SplitN2 opt ":") as [|key params]; [done|]. clear Hne.
  repeat match goal with
         | |- context [String.eqb key ?b] =>
             destruct (String.eqb_spec key b) as [->|?]
         end.
  1-6: split; [by repeat case_match|];
       split; [intros _; left; repeat constructor
              | intros _; repeat case_match; by eexists].
  - destruct params as [|param rest]; (split; [done|]); split.
    + by intros [? ?].
    + intros [Hin|[[_ ?]|[[=] _]]]; [|done].
      repeat (apply elem_of_cons in Hin as [?|Hin]; [done|]).
      by apply elem_of_nil in Hin.
    + intros _. right. left. done.
    + intros _. by eexists.
  - destruct params as [|param rest].
    { split; [done|]. split; [by intros [? ?]|].
      intros [Hin|[[[=] _]|[_ (? & ? & ? & [=] & _)]]].
      repeat (apply elem_of_cons in Hin as [?|Hin]; [done|]).
      by apply elem_of_nil in Hin. }
    destruct (ParseUint param) as [e|size] eqn:Hparse.
    + split; [done|]. split; [by intros [? ?]|].
      intros [Hin|[[[=] _]|[_ (? & ? & ? & [= <- <-] & Hn)]]]; [|congruence].
      repeat (apply elem_of_cons in Hin as [?|Hin]; [done|]).
      by apply elem_of_nil in Hin.
    + split; [done|]. split; [|intros _; by eexists].
      intros _. right. right. split; [done|]. by exists param, rest, size.
  - split; [done|]. split; [by intros [? ?]|].
    intros [Hin|[[-> _]|[-> _]]]; [|done..].
    repeat (apply elem_of_cons in Hin as [?|Hin]; [done|]).
    by apply elem_of_nil in Hin.
Qed.

Lemma applyOptions_accepts (f : field) (opts : list string) :
  applyOptions lib f opts ≠ Panic
  ∧ ((∃ f', applyOptions lib f opts = Ok f') ↔ Forall acceptedOption opts).
Proof.
  revert f. induction opts as [|opt opts IH]; intros f; simpl.
  - split; [done|]. split; [done | by eexists].
  - destruct (applyOption_accepts f opt) as [Hpanic Hok].
    destruct (applyOption lib f opt) as [f1|e|]; simpl; [|split; [done|]..|done].
    + destruct (IH f1) as [Hpanic1 Hok1]. split; [done|].
      rewrite Forall_cons, <- Hok1, <- Hok. split; [|by intros [_ ?]].
      intros Hrest. split; [by eexists | done].
    + rewrite Forall_cons, <- Hok. split; [by intros [? ?] | by intros [[? ?] _]].
Qed.

Lemma parseMigu_no_panic (f : field) (migu : string) :
  parseMigu lib f migu ≠ Panic.
Proof.
  unfold parseMigu. case_match; [done|]. apply applyOptions_accepts.
Qed.

(** X13: [parseStructTag] never panics, and whether it fails does not depend
    on the field it fills nor on the order of the options: an empty tag
    value is accepted, and any other value exactly when each of its
    comma-separated options is accepted by itself. *)
Theorem parseStructTag_accepts (f : field) (migu : string) :
  parseMigu lib f migu ≠ Panic
  ∧ ((∃ f', parseMigu lib f migu = Ok f')
     ↔ migu = "" ∨ Forall acceptedOption (Split migu ",")).
Proof.
  unfold parseMigu. destruct (String.eqb_spec migu "") as [->|Hne].
  - split; [done|]. split; [by left | by eexists].
  - destruct (applyOptions_accepts f (Split migu ",")) as [Hpanic Hok].
    split; [done|]. rewrite Hok. split; [by right | by intros [?|?]].
Qed.

End TagProperties.


(** ** [newField] *)

Section NewField.

Context (lib : golib).

Lemma applyOption_keeps_name (f f' : field) (opt : string) :
  applyOption lib f opt = Ok f' → Name f' = Name f ∧ Typ f' = Typ f.
Proof.
  unfold applyOption. repeat case_match; by intros [= <-].
Qed.

Lemma applyOptions_keeps_name (f f' : field) (opts : list string) :
  applyOptions lib f opts = Ok f' → Name f' = Name f ∧ Typ f' = Typ f.
Proof.
  revert f. induction opts as [|opt opts IH]; intros f; simpl.
  - by intros [= <-].
  - destruct (applyOption lib f opt) as [f1| |] eqn:Hopt; simpl; [|done..].
    intros [-> ->]%IH. by apply applyOption_keeps_name in Hopt.
Qed.

Lemma parseStructTag_keeps_name (f f' : field) (tag : string) :
  parseStructTag lib f tag = Ok f' → Name f' = Name f ∧ Typ f' = Typ f.
Proof.
  unfold parseStructTag, parseMigu. case_match; [by intros [= <-]|].
  apply applyOptions_keeps_name.
Qed.

(** X14: [newField] panics exactly on a field without a name (an embedded
    field); it fails only through the tag; and a field it returns has the
    first name of the declaration, the given type name, and a column that
    is empty only if the snake-cased name is empty: a [column:] option
    with an empty parameter gives way to the snake-cased name. *)
Theorem newField_name_and_column (typeName : string) (f : astField) :
  match newField lib typeName f with
  | Ok ret =>
      head (Names f) = Some (Name ret)
      ∧ Typ ret = typeName
      ∧ (Column ret = "" → ToSnakeCase lib (Name ret) = "")
  | Err e => Names f ≠ [] ∧ Tag f ≠ None
  | Panic => Names f = []
  end.
Proof.
  unfold newField. destruct (Names f) as [|name rest]; [done|].
  set (ret0 := mkField name typeName "" "" [] false false false false ""
                 defaultVarcharSize).
  assert (∀ ret, Name ret = name → Typ ret = typeName →
            let ret1 :=
              match FieldComment f with
              | Some texts => setComment ret (TrimSpace lib (CommentText lib texts))
              | None => ret
              end in
            let ret2 :=
              if String.eqb (Column ret1) ""
              then setColumn ret1 (ToSnakeCase lib (Name ret1)) else ret1 in
            head (name :: rest) = Some (Name ret2) ∧ Typ ret2 = typeName
            ∧ (Column ret2 = "" → ToSnakeCase lib (Name ret2) = "")) as Hfinish.
  { intros ret Hname Htyp ret1 ret2.
    assert (Name ret1 = name ∧ Typ ret1 = typeName) as [Hname1 Htyp1].
    { unfold ret1. by destruct (FieldComment f). }
    unfold ret2. destruct (String.eqb_spec (Column ret1) "") as [Hcol|Hcol]; simpl.
    - by rewrite Hname1, Htyp1.
    - by rewrite Hname1, Htyp1. }
  destruct (Tag f) as [value|]; simpl.
  - destruct (Unquote lib value) as [e|s]; [done|].
    pose proof (parseMigu_no_panic lib ret0 (TagGet lib s "migu")) as Hpanic.
    fold (parseStructTag lib ret0 s) in Hpanic.
    destruct (parseStructTag lib ret0 s) as [ret| |] eqn:Hparse; simpl; [|done..].
    apply parseStructTag_keeps_name in Hparse as [Hname Htyp].
    by apply Hfinish.
  - by apply Hfinish.
Qed.

End NewField.

(** ** The desired model, from the parsed structs *)

Section StructMap.

Context (lib : golib).





End StructMap.


(** ** The catalog rows *)

Lemma lookup_columnRows (indexMap : gmap string (gmap string indexInfo))
    (rows : list columnSchema) (m : gmap string (list columnSchema)) (t : string) :
  fold_left (addColumnRow indexMap) rows m !! t
  = match m !! t, filter (λ r, TableName r = t) rows with
    | Some columns, mine => Some (columns ++ map (withIndex indexMap) mine)
    | None, [] => None
    | None, mine => Some (map (withIndex indexMap) mine)
    end.
Proof.
  revert m. induction rows as [|r rows IH]; intros m; simpl.
  - destruct (m !! t); [by rewrite app_nil_r | done].
  - rewrite IH, filter_cons. unfold addColumnRow.
    destruct (decide (TableName r = t)) as [->|Hne].
    + rewrite lookup_insert_eq.
      destruct (m !! t); simpl; [by rewrite <- app_assoc | done].
    + by rewrite lookup_insert_ne.
Qed.

(** X16: [getTableMap] gives a table for every table name that has a row, and
    only for those; the table holds its rows in the order in which they
    were read, each with the index found for its column. *)
Theorem columnRows_groups_by_table (indexMap : gmap string (gmap string indexInfo))
    (rows : list columnSchema) (t : string) :
  columnRows indexMap rows !! t
  = match filter (λ r, TableName r = t) rows with
    | [] => None
    | mine => Some (map (withIndex indexMap) mine)
    end.
Proof.
  unfold columnRows. rewrite lookup_columnRows, lookup_empty.
  by destruct (filter _ rows).
Qed.

Lemma lookup_indexRows (rows : list (string * string * indexInfo))
    (m : gmap string (gmap string indexInfo)) (t c : string) :
  fold_left addIndexRow rows m !! t ≫= (λ columns, columns !! c)
  = match last (filter (λ r, r.1.1 = t ∧ r.1.2 = c) rows) with
    | Some r => Some r.2
    | None => m !! t ≫= (λ columns, columns !! c)
    end.
Proof.
  revert m. induction rows as [|[[t' c'] info] rows IH]; intros m; simpl; [done|].
  rewrite IH, filter_cons. simpl.
  destruct (decide (t' = t ∧ c' = c)) as [[-> ->]|Hne].
  - rewrite last_cons. destruct (last (filter _ rows)); [done|].
    by rewrite lookup_insert_eq; simpl; rewrite lookup_insert_eq.
  - destruct (last (filter _ rows)); [done|].
    destruct (decide (t' = t)) as [->|Ht].
    + rewrite lookup_insert_eq. simpl. rewrite lookup_insert_ne by naive_solver.
      by destruct (m !! t).
    + by rewrite lookup_insert_ne.
Qed.

(** X17: A column gets the index of the index row that was read last for its
    table and column: of several indexes on one column only one is kept.
    A column without an index row is left as it was scanned. *)
Theorem column_keeps_the_last_index_row (rows : list (string * string * indexInfo))
    (schema : columnSchema) :
  match last (filter (λ r, r.1.1 = TableName schema ∧ r.1.2 = ColumnName schema)
                rows) with
  | Some r =>
      NonUnique (withIndex (indexRows rows) schema) = info_NonUnique r.2
      ∧ IndexName (withIndex (indexRows rows) schema) = info_IndexName r.2
  | None => withIndex (indexRows rows) schema = schema
  end.
Proof.
  unfold withIndex, indexRows. rewrite lookup_indexRows, lookup_empty. simpl.
  by destruct (last _).
Qed.

(** ** The projection of a catalog column *)

Section Projection.

Context (lib : golib).

Lemma GoFieldTypes_first (schema : columnSchema) :
  match GoFieldTypes lib schema with
  | Ok types => types ≠ []
  | Err e => e = "BUG: unexpected data type: " +:+ DataType schema
  | Panic => False
  end.
Proof.
  unfold GoFieldTypes.
  repeat match goal with
         | |- context [String.eqb (DataType schema) ?b] =>
             destruct (String.eqb (DataType schema) b); simpl
         end;
    try (destruct (isUnsigned schema), (isNullable lib schema)); done.
Qed.

Lemma projectColumn_no_panic (c : columnSchema) : projectColumn lib c ≠ Panic.
Proof.
  unfold projectColumn, fieldAST.
  pose proof (GoFieldTypes_first c) as Htypes.
  destruct (GoFieldTypes lib c) as [[|type0 types]|e|]; simpl; [done| |done..].
  unfold newField; simpl.
  destruct (bool_decide (fieldTags lib c ≠ [])); simpl; [|done].
  destruct (Unquote lib _) as [e|s]; simpl; [done|].
  match goal with
  | |- context [parseStructTag lib ?f s] =>
      pose proof (parseMigu_no_panic lib f (TagGet lib s "migu")) as Hpanic;
      fold (parseStructTag lib f s) in Hpanic;
      destruct (parseStructTag lib f s)
  end; done.
Qed.

(** X18: The projection of a catalog column never panics.  A field it returns
    is named by the upper-camel-cased column name and typed by the first
    Go type that [GoFieldTypes] lists for the column.  An error is that of
    [GoFieldTypes], the unsupported data type, or comes from reading back
    a tag that [fieldAST] wrote, which then is not empty. *)
Theorem projectColumn_names_and_types (c : columnSchema) :
  match projectColumn lib c with
  | Ok f =>
      Name f = ToUpperCamelCase lib (ColumnName c)
      ∧ ∃ rest, GoFieldTypes lib c = Ok (Typ f :: rest)
  | Err e =>
      (GoFieldTypes lib c = Err e
       ∧ e = "BUG: unexpected data type: " +:+ DataType c)
      ∨ fieldTags lib c ≠ []
  | Panic => False
  end.
Proof.
  pose proof (projectColumn_no_panic c) as Hpanic.
  unfold projectColumn, fieldAST in *.
  pose proof (GoFieldTypes_first c) as Htypes.
  destruct (GoFieldTypes lib c) as [[|type0 types]|e|]; simpl in *;
    [done| |by left|done].
  unfold newField in *; simpl in *.
  set (ret0 := mkField (ToUpperCamelCase lib (ColumnName c)) type0 "" "" []
                 false false false false "" defaultVarcharSize) in *.
  assert (∀ ret : field,
            Name ret = Name ret0 → Typ ret = type0 →
            let ret1 :=
              match (if negb (String.eqb (ColumnComment c) "")
                     then Some [" // " +:+ ColumnComment c] else None) with
              | Some texts => setComment ret (TrimSpace lib (CommentText lib texts))
              | None => ret
              end in
            let ret2 :=
              if String.eqb (Column ret1) ""
              then setColumn ret1 (ToSnakeCase lib (Name ret1)) else ret1 in
            Name ret2 = ToUpperCamelCase lib (ColumnName c)
            ∧ ∃ rest, Ok (type0 :: types) = Ok (Typ ret2 :: rest)) as Hfinish.
  { intros ret Hname Htyp ret1 ret2.
    assert (Name ret1 = Name ret0 ∧ Typ ret1 = type0) as [Hname1 Htyp1].
    { unfold ret1. by destruct (negb _). }
    assert (Name ret2 = Name ret0 ∧ Typ ret2 = type0) as [Hname2 Htyp2].
    { unfold ret2. clearbody ret1. by destruct (String.eqb (Column ret1) ""). }
    split; [by rewrite Hname2|]. exists types. by rewrite Htyp2. }
  destruct (bool_decide (fieldTags lib c ≠ [])) eqn:Htags; simpl in *.
  - apply bool_decide_eq_true in Htags.
    destruct (Unquote lib _) as [e|s]; simpl in *; [by right|].
    destruct (parseStructTag lib ret0 s) as [ret|e|] eqn:Hparse; simpl in *;
      [|by right|done].
    apply parseStructTag_keeps_name in Hparse as [Hname Htyp].
    by apply Hfinish.
  - by apply Hfinish.
Qed.

(** X19: [Diff] over the catalog projection never panics, whatever the model
    and the catalog: it returns statements, or the error of a column. *)
Theorem Diff_over_the_catalog_never_panics (o : MapRange) (d : Dialect)
    (desired : gmap string table) (live : gmap string (list columnSchema)) :
  Diff o d (projectColumn lib) desired live ≠ Panic
  ∧ ∀ e, Diff o d (projectColumn lib) desired live = Err e →
         ∃ n columns c,
           is_Some (desired !! n) ∧ live !! n = Some columns ∧ c ∈ columns
           ∧ projectColumn lib c = Err e.
Proof.
  unfold Diff. destruct (tableNames_spec o desired) as [Hnd Hnames].
  pose proof (diffLoop_outcome o d (projectColumn lib) (tableNames o desired)
                (mkState [] [] ∅ desired live) Hnd) as Hloop.
  cbn [structMap tableMap] in Hloop.
  specialize (Hloop (λ n Hn, proj1 (Hnames n) Hn)).
  destruct (diffLoop o d (projectColumn lib) (tableNames o desired) _)
    as [st|e|]; simpl.
  - split; [done|]. by intros e.
  - split; [done|]. intros e' [= <-].
    destruct Hloop as (n & columns & c & Hn%Hnames & Hrest). by exists n, columns, c.
  - destruct Hloop as (n & columns & c & _ & _ & _ & Hc).
    by apply projectColumn_no_panic in Hc.
Qed.

End Projection.

(** ** The tag of a catalog column, written and read back *)

Section TagRoundTrip.

Context (lib : golib).

(** X12: When [strconv.Unquote] and [StructTag.Get] give back the options
    that [fieldAST] has written into the tag of a column, separated by
    commas, the field that [Diff] compares for the column has the default,
    the key flags, the index and the size of the column, the
    upper-camel-cased column name as its name and the snake-cased name as
    its column, provided that neither the default nor the index name
    holds a comma and the size fits 64 bits.  A column is at most one of
    primary key, indexed and unique. *)
Theorem fieldTags_parse_back (schema : columnSchema) (t : string)
    (rest : list string) :
  GoFieldTypes lib schema = Ok (t :: rest) →
  (fieldTags lib schema ≠ [] →
     ∃ s, Unquote lib (tagLiteral (fieldTags lib schema)) = inr s
          ∧ TagGet lib s "migu" = Join (fieldTags lib schema) ",") →
  (∀ v, ColumnDefault schema = Some v → hasByte "," v = false) →
  (hasIndex lib schema = true → hasByte "," (IndexName schema) = false) →
  (∀ n, CharacterMaximumLength schema = Some n → (n ≤ maxUint64)%N) →
  projectColumn lib schema = Ok (liveField lib schema t)
  ∧ hasPrimaryKey lib schema && hasIndex lib schema = false
  ∧ hasPrimaryKey lib schema && hasUniqueKey lib schema = false
  ∧ hasIndex lib schema && hasUniqueKey lib schema = false.
Proof.
  intros Htypes Hread Hdefault Hindex Hsize.
  set (base := mkField (ToUpperCamelCase lib (ColumnName schema)) t "" "" []
                 false false false false "" defaultVarcharSize).
  destruct (parseMigu_fieldTags lib schema base Hdefault Hindex Hsize)
    as [Hparse Hkeys].
  split; [|done].
  assert (match (if bool_decide (fieldTags lib schema ≠ [])
                 then Some (tagLiteral (fieldTags lib schema)) else None) with
          | Some value =>
              match Unquote lib value with
              | inl e => Err e
              | inr s => parseStructTag lib base s
              end
          | None => Ok base
          end = Ok (projectedOptions lib schema base)) as Htag.
  { destruct (decide (fieldTags lib schema ≠ [])) as [Hne|Hnil].
    - rewrite bool_decide_eq_true_2 by done.
      destruct (Hread Hne) as (s & -> & Hget).
      unfold parseStructTag. by rewrite Hget.
    - rewrite bool_decide_eq_false_2 by done.
      assert (fieldTags lib schema = []) as Hempty.
      { by destruct (fieldTags lib schema); [|destruct Hnil]. }
      rewrite Hempty in Hparse. simpl in Hparse. unfold parseMigu in Hparse.
      simpl in Hparse. by rewrite Hparse. }
  unfold projectColumn, fieldAST. rewrite Htypes. simpl.
  unfold newField. simpl. fold base. unfold tagLiteral in Htag. rewrite Htag.
  simpl. unfold liveField. fold base.
  by destruct (String.eqb (ColumnComment schema) "").
Qed.

End TagRoundTrip.

(** The column [name varchar(32)] with a default and the index [idx]. *)
Lemma fieldTags_parse_back_witness :
  projectColumn quotingLib nameColumn
  = Ok (mkField "name" "*string" "name" "" ["idx"] false false false false "x:y" 32).
Proof.
  destruct (fieldTags_parse_back quotingLib nameColumn "*string" ["sql.NullString"])
    as [Hproject _].
  - reflexivity.
  - intros _. eexists. split; reflexivity.
  - intros v [= <-]. reflexivity.
  - intros _. reflexivity.
  - intros n [= <-]. unfold maxUint64. lia.
  - exact Hproject.
Defined.

(** ** Rendering and comparison *)

(** X20: [IsDifferent] misses no attribute that [columnSQL] renders: two
    fields that it does not tell apart and whose Go types are spelled
    alike render to the same column definition, in every dialect. *)
Theorem unchanged_columns_render_alike (d : Dialect) (f another : field) :
  IsDifferent (Some f) (Some another) = false →
  Typ f = Typ another →
  columnSQL d f = columnSQL d another.
Proof.
  unfold IsDifferent. rewrite !orb_false_iff, !negb_false_iff.
  intros ((((((_ & Hdef%String.eqb_eq) & Hsize%N.eqb_eq) & Hcol%String.eqb_eq)
           & Hcom%String.eqb_eq) & Hai%Bool.eqb_prop) & Hpk%Bool.eqb_prop) Htyp.
  unfold columnSQL. by rewrite Hdef, Hsize, Hcol, Hcom, Hai, Hpk, Htyp.
Qed.

(** The column [age] with and without a unique index. *)
Lemma unchanged_columns_render_alike_witness :
  columnSQL sampleDialect ageColumn
  = columnSQL sampleDialect (withIndexes ageColumn ["age_idx"] true).
Proof.
  apply unchanged_columns_render_alike; [vm_compute; reflexivity | reflexivity].
Defined.

(** ** The order of the tables *)

(** X21: [Diff] visits the tables of the model in ascending order of their
    names, each table once, whatever order the runtime gives the map in. *)
Theorem Diff_visits_the_tables_in_name_order (o : MapRange)
    (desired : gmap string table) :
  StronglySorted String.le (tableNames o desired)
  ∧ NoDup (tableNames o desired)
  ∧ (∀ n, n ∈ tableNames o desired ↔ is_Some (desired !! n))
  ∧ tableNames o desired = tableNames keyOrder desired.
Proof.
  destruct (tableNames_spec o desired) as [Hnd Hnames].
  split; [apply tableNames_sorted|].
  split; [done|]. split; [done|]. apply tableNames_order_irrelevant.
Qed.

(** ** Struct generation *)

Section Generation.

Context (lib : golib).

Lemma GoFieldTypes_cases (schema : columnSchema) :
  match GoFieldTypes lib schema with
  | Ok types =>
      DataType schema ∈ supportedDataTypes
      ∧ ∃ t rest, types = t :: rest
                  ∧ usesTime t = String.eqb (DataType schema) "datetime"
  | Err e => e = unexpectedDataType schema ∧ DataType schema ∉ supportedDataTypes
  | Panic => False
  end.
Proof.
  unfold GoFieldTypes.
  repeat match goal with
         | |- context [String.eqb (DataType schema) ?b] =>
             destruct (String.eqb_spec (DataType schema) b) as [Heq|?];
             [rewrite ?Heq; simpl|simpl]
         end;
    try (destruct (isUnsigned schema), (isNullable lib schema);
         (split; [apply (bool_decide_unpack _); vm_compute; reflexivity
                 | eexists _, _; split; [reflexivity | vm_compute; reflexivity] ])).
  split; [done|]. unfold supportedDataTypes. intros Hin.
  repeat (apply elem_of_cons in Hin as [?|Hin]; [done|]).
  by apply elem_of_nil in Hin.
Qed.

Lemma fieldAST_cases (schema : columnSchema) :
  match fieldAST lib schema with
  | Ok f =>
      DataType schema ∈ supportedDataTypes
      ∧ ∃ t, Type_ f = Ident t
             ∧ usesTime t = String.eqb (DataType schema) "datetime"
  | Err e => e = unexpectedDataType schema ∧ DataType schema ∉ supportedDataTypes
  | Panic => False
  end.
Proof.
  unfold fieldAST. pose proof (GoFieldTypes_cases schema) as Htypes.
  destruct (GoFieldTypes lib schema) as [types|e|]; simpl; [|done..].
  destruct Htypes as (Hin & t & rest & -> & Htime). split; [done|]. by exists t.
Qed.

(** X22: [hasDatetimeColumn] holds exactly when the struct field generated for
    some column has a type of package [time]: the import of [time] that
    [Fprint] makes depend on it is there when a generated struct needs it,
    and only then.  The order in which the runtime gives the tables plays
    no part. *)
Theorem hasDatetimeColumn_iff_time_is_used (o : MapRange)
    (t : gmap string (list columnSchema)) :
  hasDatetimeColumn o t = true
  ↔ ∃ n schemas schema f goType,
      t !! n = Some schemas ∧ schema ∈ schemas
      ∧ fieldAST lib schema = Ok f ∧ Type_ f = Ident goType
      ∧ usesTime goType = true.
Proof.
  unfold hasDatetimeColumn. rewrite existsb_exists. split.
  - intros ([n schemas] & Hin%list_elem_of_In%elem_of_range & Hsome).
    simpl in Hsome. apply existsb_exists in Hsome
      as (schema & Hschema%list_elem_of_In & Hdate).
    pose proof (fieldAST_cases schema) as Hast.
    destruct (fieldAST lib schema) as [f|e|] eqn:Hf.
    + destruct Hast as (_ & goType & Htype & Htime).
      exists n, schemas, schema, f, goType. by rewrite Htime.
    + destruct Hast as [_ Hnot]. exfalso. apply Hnot.
      apply String.eqb_eq in Hdate. rewrite Hdate.
      apply (bool_decide_unpack _). vm_compute. reflexivity.
    + done.
  - intros (n & schemas & schema & f & goType & Hn & Hschema & Hf & Htype & Htime).
    exists (n, schemas). split; [by apply list_elem_of_In, elem_of_range|].
    simpl. apply existsb_exists. exists schema.
    split; [by apply list_elem_of_In|].
    pose proof (fieldAST_cases schema) as Hast. rewrite Hf in Hast.
    destruct Hast as (_ & goType' & Htype' & Htime').
    rewrite Htype in Htype'. injection Htype' as <-. by rewrite <- Htime'.
Qed.

Lemma structFields_cases (schemas : list columnSchema) (acc : list astField) :
  match structFields lib schemas acc with
  | Ok fields =>
      ∃ new, fields = acc ++ new
             ∧ Forall2 (λ schema f, fieldAST lib schema = Ok f) schemas new
  | Err e =>
      ∃ pre schema post,
        schemas = pre ++ (schema :: post)
        ∧ Forall (λ s, DataType s ∈ supportedDataTypes) pre
        ∧ (DataType schema ∉ supportedDataTypes)
        ∧ e = unexpectedDataType schema
  | Panic => False
  end.
Proof.
  revert acc. induction schemas as [|schema rest IH]; intros acc; simpl.
  - exists []. by rewrite app_nil_r.
  - pose proof (fieldAST_cases schema) as Hast.
    destruct (fieldAST lib schema) as [f|e|] eqn:Hf; simpl; [| |done].
    + destruct Hast as [Hin _]. specialize (IH (acc ++ [f])).
      destruct (structFields lib rest (acc ++ [f])) as [fields|e|]; [| |done].
      * destruct IH as (new & -> & Hall). exists (f :: new).
        rewrite <- app_assoc. split; [done|]. by constructor.
      * destruct IH as (pre & s & post & -> & Hpre & Hs & ->).
        exists (schema :: pre), s, post. repeat split; [|done..]. by constructor.
    + destruct Hast as [-> Hnot]. by exists [], schema, rest.
Qed.

(** X23: [makeStructAST] never panics.  It returns the upper-camel-cased table
    name with one field for each column, in the order of the columns,
    exactly when every column has a supported data type; otherwise it
    fails with the "unexpected data type" error of the first column whose
    data type is not supported. *)
Theorem makeStructAST_stops_at_the_first_unsupported_column (name : string)
    (schemas : list columnSchema) :
  match makeStructAST lib name schemas with
  | Ok (typeName, fields) =>
      typeName = ToUpperCamelCase lib name
      ∧ Forall2 (λ schema f, fieldAST lib schema = Ok f) schemas fields
      ∧ Forall (λ s, DataType s ∈ supportedDataTypes) schemas
  | Err e =>
      ∃ pre schema post,
        schemas = pre ++ (schema :: post)
        ∧ Forall (λ s, DataType s ∈ supportedDataTypes) pre
        ∧ (DataType schema ∉ supportedDataTypes)
        ∧ e = unexpectedDataType schema
  | Panic => False
  end.
Proof.
  unfold makeStructAST. pose proof (structFields_cases schemas []) as Hloop.
  destruct (structFields lib schemas []) as [fields|e|]; simpl; [|done..].
  destruct Hloop as (new & -> & Hall). simpl. split; [done|]. split; [done|].
  clear -Hall. induction Hall as [|schema f rest new Hf _ IH]; constructor; [|done].
  pose proof (fieldAST_cases schema) as Hast. rewrite Hf in Hast. by destruct Hast.
Qed.

End Generation.

(** ** [Sync] *)

Section SyncProperties.

Context (lib : golib) (o : MapRange) (d : Dialect).
Context {S : Type} (eng : sql.engine S).

Lemma getTableMap_connection (db : sql.DB S) :
  (getTableMap eng db).2
  = sql.mkDB (sql.data db) (sql.calls db ++ catalogQueries eng (sql.data db)).
Proof.
  unfold getTableMap, getCurrentDBName, getIndexMap, catalogQueries, called, answer,
    mbind, conn_bind, mret, conn_ret.
  destruct db as [s log]; simpl.
  destruct (sql.currentDatabase eng s) as [e|dbname]; simpl; [done|].
  destruct (sql.statistics eng s dbname) as [e|rows]; simpl;
    [by rewrite <- app_assoc|].
  destruct (sql.columns eng s dbname) as [e|rows']; simpl;
    by rewrite <- !app_assoc.
Qed.

Lemma getTableMap_no_panic (db : sql.DB S) : (getTableMap eng db).1 ≠ Panic.
Proof.
  unfold getTableMap, getCurrentDBName, getIndexMap, called, answer,
    mbind, conn_bind, mret, conn_ret.
  destruct db as [s log]; simpl.
  destruct (sql.currentDatabase eng s) as [e|dbname]; simpl; [done|].
  destruct (sql.statistics eng s dbname) as [e|rows]; simpl; [done|].
  by destruct (sql.columns eng s dbname) as [e|rows'].
Qed.

Lemma Diff_db_connection (parsed : outcome (gmap string structAST)) (db : sql.DB S) :
  (Diff_db lib o d eng parsed db).2
  = sql.mkDB (sql.data db)
      (sql.calls db
       ++ match parsed ≫= makeStructMap lib o with
          | Ok _ => catalogQueries eng (sql.data db)
          | _ => []
          end).
Proof.
  unfold Diff_db, lift, mbind at 1 2 3, conn_bind.
  destruct parsed as [structASTMap|e|]; simpl.
  2,3: destruct db; simpl; by rewrite app_nil_r.
  destruct (makeStructMap lib o structASTMap) as [structMap|e|]; simpl.
  2,3: destruct db; simpl; by rewrite app_nil_r.
  pose proof (getTableMap_connection db) as Hconn.
  destruct (getTableMap eng db) as [[tableMap|e|] db1]; simpl in *; by subst.
Qed.

Lemma execAll_failure (pre post : list string) (query e : string) (db : sql.DB S) :
  allSucceed eng pre (sql.data db) = true →
  (sql.exec eng query (afterExecs eng pre (sql.data db))).1 = Some e →
  execAll eng (pre ++ query :: post) db
  = (Err e,
     sql.mkDB (sql.rollback eng (sql.exec eng query (afterExecs eng pre (sql.data db))).2)
       (sql.calls db ++ map sql.Exec pre ++ [sql.Exec query; sql.Rollback])).
Proof.
  revert db. induction pre as [|q pre IH]; intros [s log]; simpl.
  - intros _. destruct (sql.exec eng query s) as [err s']; simpl.
    intros ->. by rewrite <- app_assoc.
  - destruct (sql.exec eng q s) as [[e'|] s']; simpl; [done|].
    intros Hpre Hquery. rewrite (IH (sql.mkDB s' (log ++ [sql.Exec q]))) by done.
    simpl. by rewrite <- app_assoc.
Qed.

Lemma execAll_success (sqls : list string) (db : sql.DB S) :
  allSucceed eng sqls (sql.data db) = true →
  execAll eng sqls db
  = (Ok (),
     sql.mkDB (afterExecs eng sqls (sql.data db)) (sql.calls db ++ map sql.Exec sqls)).
Proof.
  revert db. induction sqls as [|q sqls IH]; intros [s log]; simpl.
  - intros _. by rewrite app_nil_r.
  - destruct (sql.exec eng q s) as [[e'|] s']; simpl; [done|].
    intros Hrest. rewrite (IH (sql.mkDB s' (log ++ [sql.Exec q]))) by done.
    simpl. by rewrite <- app_assoc.
Qed.

Lemma Sync_eq (parsed : outcome (gmap string structAST)) (db : sql.DB S) :
  Sync lib o d eng parsed db
  = match Diff_db lib o d eng parsed db with
    | (Ok sqls, db) =>
        match beginTx eng db with
        | (Ok _, db) =>
            match execAll eng sqls db with
            | (Ok _, db) => commitTx eng db
            | (Err e, db) => (Err e, db)
            | (Panic, db) => (Panic, db)
            end
        | (Err e, db) => (Err e, db)
        | (Panic, db) => (Panic, db)
        end
    | (Err e, db) => (Err e, db)
    | (Panic, db) => (Panic, db)
    end.
Proof.
  unfold Sync, mbind at 1, conn_bind.
  destruct (Diff_db lib o d eng parsed db) as [[sqls|e|] db1]; [|done..].
  unfold mbind at 1, conn_bind.
  destruct (beginTx eng db1) as [[[]|e|] db2]; [|done..].
  unfold mbind, conn_bind.
  by destruct (execAll eng sqls db2) as [[[]|e|] db3].
Qed.

(** C8, amended: [Sync] opens one transaction and runs the statements of
    [Diff] in their order.  When a statement fails, the statements after
    it are not run, [Rollback] is called and the error of the statement is
    returned; the server is left in the state that its rollback gives,
    which is the state before the call when the engine supports
    transactions.  When none fails, every statement has run, in order, and
    [Commit] is called. *)
Theorem Sync_runs_Diff_in_one_transaction (parsed : outcome (gmap string structAST))
    (db db1 : sql.DB S) (sqls : list string) (tx : S) :
  Diff_db lib o d eng parsed db = (Ok sqls, db1) →
  sql.begin eng (sql.data db1) = inr tx →
  (∀ pre query post e,
     sqls = pre ++ query :: post →
     allSucceed eng pre tx = true →
     (sql.exec eng query (afterExecs eng pre tx)).1 = Some e →
     Sync lib o d eng parsed db
     = (Err e,
        sql.mkDB (sql.rollback eng (sql.exec eng query (afterExecs eng pre tx)).2)
          (sql.calls db1 ++ [sql.Begin] ++ map sql.Exec pre
             ++ [sql.Exec query; sql.Rollback]))
     ∧ (supportsTransactions eng →
          sql.data (Sync lib o d eng parsed db).2 = sql.data db))
  ∧ (allSucceed eng sqls tx = true →
       Sync lib o d eng parsed db
       = (match (sql.commit eng (afterExecs eng sqls tx)).1 with
          | Some e => Err e
          | None => Ok ()
          end,
          sql.mkDB (sql.commit eng (afterExecs eng sqls tx)).2
            (sql.calls db1 ++ [sql.Begin] ++ map sql.Exec sqls ++ [sql.Commit]))).
Proof.
  intros Hdiff Hbegin.
  assert (sql.data db1 = sql.data db) as Hdata.
  { pose proof (Diff_db_connection parsed db) as Hconn.
    rewrite Hdiff in Hconn. simpl in Hconn. by rewrite Hconn. }
  split.
  - intros pre query post e -> Hpre Hquery.
    assert (Sync lib o d eng parsed db
            = (Err e,
               sql.mkDB
                 (sql.rollback eng (sql.exec eng query (afterExecs eng pre tx)).2)
                 (sql.calls db1 ++ [sql.Begin] ++ map sql.Exec pre
                    ++ [sql.Exec query; sql.Rollback]))) as Hsync.
    { rewrite Sync_eq, Hdiff. unfold beginTx. rewrite Hbegin.
      rewrite (execAll_failure pre post query e) by done.
      simpl. by rewrite <- !app_assoc. }
    split; [done|]. intros Htx. rewrite Hsync. simpl.
    assert ((sql.exec eng query (afterExecs eng pre tx)).2
            = afterExecs eng (pre ++ [query]) tx) as ->.
    { unfold afterExecs. by rewrite fold_left_app. }
    rewrite <- Hdata. by apply Htx.
  - intros Hall. rewrite Sync_eq, Hdiff. unfold beginTx. rewrite Hbegin.
    rewrite (execAll_success sqls) by done.
    unfold commitTx. simpl.
    destruct (sql.commit eng (afterExecs eng sqls tx)) as [err s]; simpl.
    by rewrite <- !app_assoc.
Qed.

Lemma execAll_calls (sqls : list string) (db : sql.DB S) :
  ∃ n, n ≤ length sqls
    ∧ ((execAll eng sqls db).1 = Ok ()
       ∧ n = length sqls
       ∧ sql.calls (execAll eng sqls db).2 = sql.calls db ++ map sql.Exec sqls
       ∨ (∃ e, (execAll eng sqls db).1 = Err e)
         ∧ 0 < n
         ∧ sql.calls (execAll eng sqls db).2
           = sql.calls db ++ map sql.Exec (take n sqls) ++ [sql.Rollback]).
Proof.
  revert db. induction sqls as [|q sqls IH]; intros [s log]; simpl.
  - exists 0. split; [done|]. left. by rewrite app_nil_r.
  - destruct (sql.exec eng q s) as [[e|] s']; simpl.
    + exists 1. split; [lia|]. right. split; [by exists e|]. split; [lia|].
      simpl. by rewrite ?take_0, <- app_assoc.
    + destruct (IH (sql.mkDB s' (log ++ [sql.Exec q]))) as (n & Hn & Hcases).
      exists (Datatypes.S n). split; [lia|]. simpl in Hcases.
      destruct Hcases as [(Hok & -> & Hcalls)|(He & Hpos & Hcalls)].
      * left. by rewrite Hcalls, <- app_assoc.
      * right. split; [done|]. split; [lia|]. by rewrite Hcalls, <- app_assoc.
Qed.

(** X10: The calls of [Sync] on the connection.  [Diff] makes no call
    when the model is rejected, and otherwise the three queries of
    [getTableMap], each when the one before it has succeeded; it makes no
    other call.  When [Diff] fails, [Sync] returns that failure without
    another call.  Otherwise one [Begin] follows, then a prefix of the
    statements of [Diff] in their order, then at most one [Rollback] or
    [Commit]: none when the transaction could not be opened, the
    [Rollback] after a statement that failed, the [Commit] after all
    statements have run. *)
Theorem Sync_calls_on_the_connection (parsed : outcome (gmap string structAST))
    (db : sql.DB S) :
  let result := Sync lib o d eng parsed db in
  let diff := Diff_db lib o d eng parsed db in
  sql.calls diff.2
  = sql.calls db
    ++ match parsed ≫= makeStructMap lib o with
       | Ok _ => catalogQueries eng (sql.data db)
       | _ => []
       end
  ∧ match diff.1 with
    | Ok sqls =>
        ∃ n closing,
          sql.calls result.2
          = sql.calls diff.2 ++ [sql.Begin] ++ map sql.Exec (take n sqls) ++ closing
          ∧ n ≤ length sqls
          ∧ ((closing = [] ∧ n = 0 ∧ result.1 ≠ Ok ())
             ∨ (closing = [sql.Rollback] ∧ 0 < n ∧ result.1 ≠ Ok ())
             ∨ (closing = [sql.Commit] ∧ n = length sqls))
    | Err e => result = (Err e, diff.2)
    | Panic => result = (Panic, diff.2)
    end.
Proof.
  intros result diff. split.
  { unfold diff. by rewrite Diff_db_connection. }
  unfold result. rewrite Sync_eq. fold diff.
  destruct diff as [[sqls|e|] db1]; simpl; [|done..].
  unfold beginTx. destruct (sql.begin eng (sql.data db1)) as [e|tx]; simpl.
  { exists 0, []. rewrite take_0. simpl. split; [done|]. split; [lia|]. by left. }
  destruct (execAll_calls sqls (sql.mkDB tx (sql.calls db1 ++ [sql.Begin])))
    as (n & Hn & Hcases).
  simpl in Hcases. destruct Hcases as [(Hok & -> & Hcalls)|([e He] & Hpos & Hcalls)].
  - destruct (execAll eng sqls _) as [[[]|e|] db3]; simpl in *; [|done..].
    unfold commitTx. destruct (sql.commit eng (sql.data db3)) as [err s]; simpl.
    exists (length sqls), [sql.Commit]. rewrite firstn_all, Hcalls, <- !app_assoc.
    split; [done|]. split; [done|]. right. by right.
  - destruct (execAll eng sqls _) as [[[]|e'|] db3]; simpl in *; [done| |done].
    exists n, [sql.Rollback]. rewrite Hcalls, <- !app_assoc.
    split; [done|]. split; [done|]. right. by left.
Qed.

End SyncProperties.

Lemma transactionalEngine_working (sqls : list string) (applied working : list string) :
  (afterExecs transactionalEngine sqls (applied, Some working)).1 = applied.
Proof.
  revert working. induction sqls as [|q sqls IH]; intros working; [done|].
  unfold afterExecs in *. simpl. destruct (refused q); simpl; apply IH.
Qed.

Lemma transactionalEngine_supportsTransactions :
  supportsTransactions transactionalEngine.
Proof.
  intros [applied [working|]] tx sqls; simpl; [done|]. intros [= <-].
  by rewrite transactionalEngine_working.
Qed.

(** The model [user] with the unique field [email] against the catalog
    of the examples, on a server with transactions that refuses the DROP:
    the ADD has run, the DROP fails, the transaction is rolled back and
    nothing is stored. *)
Lemma Sync_runs_Diff_in_one_transaction_witness :
  Sync plainLib keyOrder sampleDialect transactionalEngine (Ok userStructs)
    (sql.mkDB ([], None) [])
  = (Err "cannot drop",
     sql.mkDB ([], None)
       [sql.QueryRow "SELECT DATABASE()"; sql.Query statisticsQuery "app";
        sql.Query columnsQuery "app"; sql.Begin;
        sql.Exec "ALTER TABLE `user` ADD `email`";
        sql.Exec "ALTER TABLE `user` DROP `age`"; sql.Rollback])
  ∧ sql.data
      (Sync plainLib keyOrder sampleDialect transactionalEngine (Ok userStructs)
         (sql.mkDB ([], None) [])).2
    = ([], None).
Proof.
  destruct (Sync_runs_Diff_in_one_transaction plainLib keyOrder sampleDialect
              transactionalEngine (Ok userStructs) (sql.mkDB ([], None) [])
              (sql.mkDB ([], None)
                 [sql.QueryRow "SELECT DATABASE()"; sql.Query statisticsQuery "app";
                  sql.Query columnsQuery "app"])
              ["ALTER TABLE `user` ADD `email`"; "ALTER TABLE `user` DROP `age`";
               "CREATE UNIQUE INDEX `email` ON `user` (`email`)"]
              ([], Some []))
    as [Hfailure _].
  - vm_compute. reflexivity.
  - reflexivity.
  - destruct (Hfailure ["ALTER TABLE `user` ADD `email`"]
                "ALTER TABLE `user` DROP `age`"
                ["CREATE UNIQUE INDEX `email` ON `user` (`email`)"]
                "cannot drop") as [Hsync Hdata]; [reflexivity..|].
    split; [exact Hsync|].
    exact (Hdata transactionalEngine_supportsTransactions).
Defined.

(** C8 as stated fails: on a server without transactions the ADD stays
    applied after the DROP has failed and [Rollback] has been called. *)
Lemma Sync_without_transactions_keeps_a_statement :
  Sync plainLib keyOrder sampleDialect autocommitEngine (Ok userStructs)
    (sql.mkDB [] [])
  = (Err "cannot drop",
     sql.mkDB ["ALTER TABLE `user` ADD `email`"]
       [sql.QueryRow "SELECT DATABASE()"; sql.Query statisticsQuery "app";
        sql.Query columnsQuery "app"; sql.Begin;
        sql.Exec "ALTER TABLE `user` ADD `email`";
        sql.Exec "ALTER TABLE `user` DROP `age`"; sql.Rollback])
  ∧ sql.data
      (Sync plainLib keyOrder sampleDialect autocommitEngine (Ok userStructs)
         (sql.mkDB [] [])).2
    ≠ sql.data (sql.mkDB ([] : list string) []).
Proof.
  assert (Sync plainLib keyOrder sampleDialect autocommitEngine (Ok userStructs)
            (sql.mkDB [] [])
          = (Err "cannot drop",
             sql.mkDB ["ALTER TABLE `user` ADD `email`"]
               [sql.QueryRow "SELECT DATABASE()"; sql.Query statisticsQuery "app";
                sql.Query columnsQuery "app"; sql.Begin;
                sql.Exec "ALTER TABLE `user` ADD `email`";
                sql.Exec "ALTER TABLE `user` DROP `age`"; sql.Rollback]))
    as Hsync by (vm_compute; reflexivity).
  split; [exact Hsync|]. by rewrite Hsync.
Qed.
